(** * chromelens: colour conversion, classification and palette extraction

    A shallow embedding of [utils/colorAnalysis.ts] (with the interfaces of
    [types.ts]) and the properties of its functions, and of the handlers of
    [App.tsx] that work on its results.

    JavaScript numbers are IEEE-754 binary64 values; they are modelled by the
    primitive type [float], whose operations are the hardware ones, so that
    [rgbToHsl] rounds exactly like the program does.  Numbers that the code
    keeps integral (channels, counts, packed keys, indices) are modelled by
    [Z], and converted with [num] where the code divides them. *)

From Stdlib Require Import ZArith List Bool Lia Floats String Ascii.
From Stdlib Require Import Strings.Byte.
From Stdlib Require Import Sorting.Sorted.
From Stdlib Require Import QArith.
Import ListNotations.

Open Scope Z_scope.

Set Warnings "-inexact-float".

(** ** The JavaScript operations the module uses *)

Module JS.

(** The Number value of an integer. *)
Definition num (z : Z) : float :=
  if z <? 0 then (- of_uint63 (Uint63.of_Z (- z)))%float
  else of_uint63 (Uint63.of_Z z).

(** The comparisons [x <= y] and [x < y] of two numbers, as propositions. *)
Definition le (x y : float) : Prop := (x <=? y)%float = true.
Definition lt (x y : float) : Prop := (x <? y)%float = true.

(** [Math.max] and [Math.min] of two numbers: NaN if either is NaN, and
    [+0] counts as larger than [-0]. *)
Definition max2 (a b : float) : float :=
  if is_nan a || is_nan b then nan
  else if (a <? b)%float then b
  else if (b <? a)%float then a
  else if get_sign a then b else a.

Definition min2 (a b : float) : float :=
  if is_nan a || is_nan b then nan
  else if (a <? b)%float then a
  else if (b <? a)%float then b
  else if get_sign a then a else b.

Definition Math_max (a b c : float) : float := max2 (max2 a b) c.
Definition Math_min (a b c : float) : float := min2 (min2 a b) c.

(** The integer an exactly integral computation [n] denotes, as a Number;
    a zero result keeps the sign [s] of the argument. *)
Definition integral (s : bool) (n : Z) : float :=
  if n =? 0 then (if s then PrimFloat.neg_zero else PrimFloat.zero) else num n.

(** [Math.round x]: the integer closest to [x], ties towards +infinity,
    that is [floor (x + 1/2)] computed without rounding error.  With
    [x = (-1)^s * m * 2^e] and [e < 0] this is
    [floor ((2 * (+-m) + 2^-e) / 2^(1-e))]. *)
Definition Math_round (x : float) : float :=
  match Prim2SF x with
  | S754_finite s m e =>
      if 0 <=? e then x
      else
        let sm := if s then Z.neg m else Z.pos m in
        integral s (Z.shiftr (2 * sm + Z.shiftl 1 (- e)) (1 - e))
  | _ => x
  end.

(** [Math.floor x]. *)
Definition Math_floor (x : float) : float :=
  match Prim2SF x with
  | S754_finite s m e =>
      if 0 <=? e then x
      else integral s (Z.shiftr (if s then Z.neg m else Z.pos m) (- e))
  | _ => x
  end.

(** Truncation towards zero of a finite number; 0 for NaN and infinities. *)
Definition truncate (x : float) : Z :=
  match Prim2SF x with
  | S754_finite s m e =>
      let a := if 0 <=? e then Z.shiftl (Z.pos m) e
               else Z.shiftr (Z.pos m) (- e) in
      if s then - a else a
  | _ => 0
  end.

(** Wrap-around of an integer to a signed 32-bit one. *)
Definition wrap32 (z : Z) : Z := (z + 2 ^ 31) mod 2 ^ 32 - 2 ^ 31.

(** [ToInt32], which is what [x | 0] computes. *)
Definition ToInt32 (x : float) : Z := wrap32 (truncate x).

(** Conversion to a WebIDL [unsigned long], as on assignment to
    [canvas.width]. *)
Definition ToUint32 (x : float) : Z := truncate x mod 2 ^ 32.

(** [a << n] and [a | b] on integral numbers. *)
Definition shl (a n : Z) : Z := wrap32 (Z.shiftl (wrap32 a) (n mod 32)).
Definition bor (a b : Z) : Z := Z.lor (wrap32 a) (wrap32 b).

(** One digit of [Number.prototype.toString(16)]. *)
Definition hexDigit (d : Z) : ascii :=
  match d with
  | 0 => "0" | 1 => "1" | 2 => "2" | 3 => "3" | 4 => "4" | 5 => "5"
  | 6 => "6" | 7 => "7" | 8 => "8" | 9 => "9" | 10 => "a" | 11 => "b"
  | 12 => "c" | 13 => "d" | 14 => "e" | _ => "f"
  end%char.

(** The digits of a non-negative integer in radix 16, most significant
    first, in front of [acc]. *)
Fixpoint hexDigits (fuel : nat) (n : Z) (acc : string) : string :=
  match fuel with
  | O => acc
  | S fuel' =>
      let acc' := String (hexDigit (n mod 16)) acc in
      if n / 16 =? 0 then acc' else hexDigits fuel' (n / 16) acc'
  end.

(** [n.toString(16)] for an integral number. *)
Definition toString16 (n : Z) : string :=
  let digits := hexDigits (S (Z.to_nat (Z.log2 (Z.abs n)))) (Z.abs n) EmptyString in
  if n <? 0 then String "-"%char digits else digits.

(** [s.slice(1)]. *)
Definition slice1 (s : string) : string :=
  match s with
  | EmptyString => EmptyString
  | String _ t => t
  end.

Definition code (c : ascii) : Z := Z.of_N (N_of_ascii c).

(** The value of a radix-16 digit, in either case. *)
Definition hexValue (c : ascii) : option Z :=
  let n := code c in
  if (48 <=? n) && (n <=? 57) then Some (n - 48)
  else if (97 <=? n) && (n <=? 102) then Some (n - 87)
  else if (65 <=? n) && (n <=? 70) then Some (n - 55)
  else None.

(** [parseInt(s, 16)] on a string without white space, sign or [0x]
    prefix: the value of the longest prefix of radix-16 digits.  (An empty
    prefix is NaN in JavaScript and reads 0 here; [hexToRgb] only parses
    groups of two digits.) *)
Fixpoint parseDigits (s : string) (acc : Z) : Z :=
  match s with
  | EmptyString => acc
  | String c t =>
      match hexValue c with
      | Some d => parseDigits t (16 * acc + d)
      | None => acc
      end
  end.

Definition parseInt16 (s : string) : Z := parseDigits s 0.

(** [Array.prototype.sort] with a comparator: a stable sort (ECMAScript
    2019), here by insertion.  [cmp a b <= 0] keeps [a] in front of [b]. *)
Section Sort.
Context {A : Type} (cmp : A -> A -> Z).

Fixpoint insert (x : A) (l : list A) : list A :=
  match l with
  | [] => [x]
  | y :: t => if cmp x y <=? 0 then x :: y :: t else y :: insert x t
  end.

Fixpoint sort (l : list A) : list A :=
  match l with
  | [] => []
  | x :: t => insert x (sort t)
  end.
End Sort.

End JS.

(** ** types.ts *)

Record RGB := mkRGB { r : Z; g : Z; b : Z }.

Record HSL := mkHSL { h : float; s : float; l : float }.

Inductive Category := Warm | Cool | Neutral.

Record ColorData := mkColorData {
  hex : string;
  rgb : RGB;
  hsl : HSL;
  category : Category;
  population : Z
}.

Record PaletteAnalysis := mkPaletteAnalysis {
  all : list ColorData;
  warm : list ColorData;
  cool : list ColorData;
  neutral : list ColorData;
  accents : list ColorData
}.

(** ** utils/colorAnalysis.ts: conversions and classification *)

Definition rgbToHex (c : RGB) : string :=
  String "#"%char
    (JS.slice1 (JS.toString16 (JS.shl 1 24 + JS.shl (r c) 16 + JS.shl (g c) 8 + b c))).

(** The character class [[a-f\d]] under the [i] flag. *)
Definition hexClass (c : ascii) : bool :=
  let n := JS.code c in
  ((97 <=? n) && (n <=? 102)) || ((65 <=? n) && (n <=? 70))
  || ((48 <=? n) && (n <=? 57)).

(** One group [([a-f\d]{2})] at the head of the input: the capture and the
    rest. *)
Definition group2 (s : string) : option (string * string) :=
  match s with
  | String c1 (String c2 rest) =>
      if hexClass c1 && hexClass c2
      then Some (String c1 (String c2 EmptyString), rest)
      else None
  | _ => None
  end.

(** [#?] at the head of the input: what follows it.  It takes a leading [#]
    when there is one (without it the first group would have to match [#],
    which it cannot). *)
Definition optionalHash (hex : string) : string :=
  match hex with
  | String "#"%char rest => rest
  | _ => hex
  end.

(** [([a-f\d]{2})([a-f\d]{2})([a-f\d]{2})$]: the three captures. *)
Definition groups (body : string) : option (string * string * string) :=
  match group2 body with
  | Some (g1, rest1) =>
      match group2 rest1 with
      | Some (g2, rest2) =>
          match group2 rest2 with
          | Some (g3, EmptyString) => Some (g1, g2, g3)
          | _ => None
          end
      | None => None
      end
  | None => None
  end.

(** [/^#?([a-f\d]{2})([a-f\d]{2})([a-f\d]{2})$/i.exec(hex)] *)
Definition execHex (hex : string) : option (string * string * string) :=
  groups (optionalHash hex).

Definition hexToRgb (hex : string) : option RGB :=
  match execHex hex with
  | Some (g1, g2, g3) =>
      Some (mkRGB (JS.parseInt16 g1) (JS.parseInt16 g2) (JS.parseInt16 g3))
  | None => None
  end.

Definition rgbToHsl (c : RGB) : HSL :=
  let r := (JS.num (r c) / 255)%float in
  let g := (JS.num (g c) / 255)%float in
  let b := (JS.num (b c) / 255)%float in
  let max := JS.Math_max r g b in
  let min := JS.Math_min r g b in
  let h := 0%float in
  let s := 0%float in
  let l := ((max + min) / 2)%float in
  let '(h, s) :=
    if negb (max =? min)%float then
      let d := (max - min)%float in
      let s := if (0.5 <? l)%float then (d / (2 - max - min))%float
               else (d / (max + min))%float in
      let h :=
        if (max =? r)%float
        then ((g - b) / d + (if (g <? b)%float then 6 else 0))%float
        else if (max =? g)%float then ((b - r) / d + 2)%float
        else if (max =? b)%float then ((r - g) / d + 4)%float
        else h in
      ((h / 6)%float, s)
    else (h, s) in
  mkHSL (JS.Math_round (h * 360)%float) s l.

Definition categorizeColor (c : HSL) : Category :=
  let '(mkHSL h s l) := c in
  if (s <=? 0.18)%float || (l <=? 0.12)%float || (0.95 <=? l)%float then Neutral
  else if ((0 <=? h)%float && (h <? 90)%float)
          || ((315 <=? h)%float && (h <=? 360)%float) then Warm
  else Cool.

Definition isAccentColor (c : HSL) : bool :=
  (0.45 <=? s c)%float && (0.2 <=? l c)%float && (l c <=? 0.85)%float.

Definition colorDistanceSq (c1 c2 : RGB) : Z :=
  (r c1 - r c2) ^ 2 + (g c1 - g c2) ^ 2 + (b c1 - b c2) ^ 2.

(** ** The canvas the image is drawn on *)

(** What [extractColors] throws or is thrown at; the promise is rejected
    with it. *)
Inductive Exception :=
| Error (message : string)
| DOMException (name : string).

(** The state of the promise [extractColors] returns.  [Pending] is a
    promise that never settles: the executor does not return. *)
Inductive Promise (A : Type) :=
| Resolved (value : A)
| Rejected (reason : Exception)
| Pending.

Arguments Resolved {A} value.
Arguments Rejected {A} reason.
Arguments Pending {A}.

(** A loaded, same-origin image: its natural size ([unsigned long]s) and
    the RGBA bytes that [getImageData(0, 0, w, h)] reads back once the image
    is drawn on a canvas of [w] by [h] pixels, row by row, four bytes per
    pixel. *)
Record HTMLImageElement := mkImage {
  naturalWidth : Z;
  naturalHeight : Z;
  drawn : Z -> Z -> list byte
}.

(** [ctx.getImageData(0, 0, sw, sh)] after [ctx.drawImage(image, 0, 0, sw,
    sh)].  The HTML Standard has [getImageData] throw an [IndexSizeError]
    exception when [sw] or [sh] is zero. *)
Definition getImageData (image : HTMLImageElement) (sw sh : Z)
  : Exception + list byte :=
  if (sw =? 0) || (sh =? 0) then inl (DOMException "IndexSizeError")
  else inr (drawn image sw sh).

(** [data[i]] of the [Uint8ClampedArray], as a number; [undefined] outside
    the array, which is NaN in arithmetic and comparisons. *)
Definition element (data : list byte) (i : nat) : float :=
  match nth_error data i with
  | Some v => JS.num (Z.of_N (Byte.to_N v))
  | None => nan
  end.

(** ** utils/colorAnalysis.ts: extraction *)

Module Bucket.
Record t := mk { count : Z; r : Z; g : Z; b : Z }.
End Bucket.

(** [Map<number, {count, r, g, b}>]: the entries in insertion order, which
    is the order [values()] iterates in. *)
Definition ColorCounts := list (Z * Bucket.t).

Fixpoint Map_get (key : Z) (m : ColorCounts) : option Bucket.t :=
  match m with
  | [] => None
  | (k, v) :: rest => if k =? key then Some v else Map_get key rest
  end.

(** [m.set(key, value)]: replaces the value of a present key in place and
    appends an absent one. *)
Fixpoint Map_set (key : Z) (value : Bucket.t) (m : ColorCounts) : ColorCounts :=
  match m with
  | [] => [(key, value)]
  | (k, v) :: rest =>
      if k =? key then (k, value) :: rest else (k, v) :: Map_set key value rest
  end.

Definition quantize : float := 12%float.

(** [(x / quantize | 0) * quantize] *)
Definition quantized (x : float) : Z := JS.ToInt32 (x / quantize) * 12.

(** One iteration of the sampling loop, at index [i]. *)
Definition sample (data : list byte) (colorCounts : ColorCounts) (i : nat)
  : ColorCounts :=
  let r := element data i in
  let g := element data (i + 1) in
  let b := element data (i + 2) in
  let a := element data (i + 3) in
  if (a <? 200)%float then colorCounts
  else
    let qr := quantized r in
    let qg := quantized g in
    let qb := quantized b in
    let key := JS.bor (JS.bor (JS.shl qr 16) (JS.shl qg 8)) qb in
    match Map_get key colorCounts with
    | Some existing =>
        Map_set key (Bucket.mk (Bucket.count existing + 1) (Bucket.r existing)
                       (Bucket.g existing) (Bucket.b existing)) colorCounts
    | None => Map_set key (Bucket.mk 1 qr qg qb) colorCounts
    end.

(** The indices [for (let i = 0; i < length; i += step)] runs through, from
    [i] on; [None] when [fuel] iterations do not reach the end. *)
Fixpoint indices (fuel length step i : nat) : option (list nat) :=
  if (i <? length)%nat then
    match fuel with
    | O => None
    | S fuel' => option_map (cons i) (indices fuel' length step (i + step))
    end
  else Some [].

Definition minDistanceSq : Z := 50 * 50.

Definition rgbOf (c : Bucket.t) : RGB :=
  mkRGB (Bucket.r c) (Bucket.g c) (Bucket.b c).

(** The loop over [sortedColors] that fills [distinctColors]. *)
Fixpoint distinctLoop (maxColors : nat) (sortedColors distinctColors : list Bucket.t)
  : list Bucket.t :=
  match sortedColors with
  | [] => distinctColors
  | color :: rest =>
      if (maxColors <=? List.length distinctColors)%nat then distinctColors
      else
        let rgb := rgbOf color in
        let isDistinct :=
          forallb (fun existing => minDistanceSq <? colorDistanceSq (rgbOf existing) rgb)
                  distinctColors in
        distinctLoop maxColors rest
          (if isDistinct then distinctColors ++ [color] else distinctColors)
  end.

Definition colorData (c : Bucket.t) : ColorData :=
  let rgb := rgbOf c in
  let hsl := rgbToHsl rgb in
  mkColorData (rgbToHex rgb) rgb hsl (categorizeColor hsl) (Bucket.count c).

Definition isWarm (c : ColorData) : bool :=
  match category c with Warm => true | _ => false end.
Definition isCool (c : ColorData) : bool :=
  match category c with Cool => true | _ => false end.
Definition isNeutral (c : ColorData) : bool :=
  match category c with Neutral => true | _ => false end.

(** The map the sampling loop leaves, when it ends. *)
Definition countColors (data : list byte) (sampleRate : nat) : option ColorCounts :=
  option_map (fun visited => fold_left (sample data) visited [])
             (indices (List.length data) (List.length data) (4 * sampleRate) 0).

(** From the counted buckets to the result. *)
Definition analyse (colorCounts : ColorCounts) (maxColors : nat) : PaletteAnalysis :=
  let sortedColors :=
    JS.sort (fun a b => Bucket.count b - Bucket.count a) (map snd colorCounts) in
  let distinctColors := distinctLoop maxColors sortedColors [] in
  let all := map colorData distinctColors in
  mkPaletteAnalysis all (filter isWarm all) (filter isCool all)
    (filter isNeutral all) (filter (fun c => isAccentColor (hsl c)) all).

(** [extractColors(imageElement, sampleRate, maxColors)]; [context] tells
    whether [canvas.getContext('2d')] gives a context. *)
Definition extractColors (context : bool) (imageElement : HTMLImageElement)
    (sampleRate maxColors : nat) : Promise PaletteAnalysis :=
  if negb context then Rejected (Error "Could not get canvas context")
  else
    let maxSize := 150%float in
    let scale :=
      JS.min2 1 (maxSize / JS.max2 (JS.num (naturalWidth imageElement))
                                   (JS.num (naturalHeight imageElement)))%float in
    let width := JS.ToUint32 (JS.Math_floor (JS.num (naturalWidth imageElement) * scale)) in
    let height := JS.ToUint32 (JS.Math_floor (JS.num (naturalHeight imageElement) * scale)) in
    match getImageData imageElement width height with
    | inl e => Rejected e
    | inr data =>
        match countColors data sampleRate with
        | None => Pending
        | Some colorCounts => Resolved (analyse colorCounts maxColors)
        end
    end.

(** ** Vocabulary of the properties *)

(** An RGB triple of 8-bit channels. *)
Definition validRGB (c : RGB) : Prop :=
  0 <= r c <= 255 /\ 0 <= g c <= 255 /\ 0 <= b c <= 255.

(** The strings [/^#[0-9a-f]{6}$/] matches. *)
Definition lowerHexChar (c : ascii) : bool :=
  existsb (Ascii.eqb c) (list_ascii_of_string "0123456789abcdef").

Definition canonicalHex (s : string) : Prop :=
  exists c1 c2 c3 c4 c5 c6,
    s = String "#" (String c1 (String c2 (String c3 (String c4 (String c5
          (String c6 EmptyString))))))
    /\ Forall (fun c => lowerHexChar c = true) [c1; c2; c3; c4; c5; c6].

(** A hexadecimal digit in either case, and the inputs [hexToRgb] is
    specified to accept: an optional [#], then exactly six such digits. *)
Definition hexDigitChar (c : ascii) : bool :=
  existsb (Ascii.eqb c) (list_ascii_of_string "0123456789abcdefABCDEF").

Definition wellFormedHex (s : string) : Prop :=
  exists digits,
    (s = digits \/ s = String "#" digits)
    /\ String.length digits = 6%nat
    /\ Forall (fun c => hexDigitChar c = true) (list_ascii_of_string digits).

(** The rules of the classifier, as the specification words them. *)
Definition neutralRule (c : HSL) : Prop :=
  JS.le (s c) 0.18 \/ JS.le (l c) 0.12 \/ JS.le 0.95 (l c).

Definition warmRule (c : HSL) : Prop :=
  (JS.le 0 (h c) /\ JS.lt (h c) 90) \/ (JS.le 315 (h c) /\ JS.le (h c) 360).

(** The accent predicate, as the specification words it. *)
Definition accentRule (c : HSL) : Prop :=
  JS.le 0.45 (s c) /\ JS.le 0.2 (l c) /\ JS.le (l c) 0.85.

(** The 2 by 2 raster of the scenario: red, near-red, blue, and a green pixel
    of alpha 128. *)
Definition scenarioData : list byte :=
  [xff; x00; x00; xff;   xfa; x05; x05; xff;
   x00; x00; xff; xff;   x00; xff; x00; x80].

Definition scenarioImage : HTMLImageElement :=
  mkImage 2 2 (fun _ _ => scenarioData).

(** The computation of [rgbToHsl] on channels already divided by 255, up to
    the rounding of the hue: [(h * 360, s, l)]. *)
Definition hslOfUnit (r g b : float) : float * float * float :=
  let max := JS.Math_max r g b in
  let min := JS.Math_min r g b in
  let l := ((max + min) / 2)%float in
  if (max =? min)%float then ((0 * 360)%float, 0%float, l)
  else
    let d := (max - min)%float in
    let s := if (0.5 <? l)%float then (d / (2 - max - min))%float
             else (d / (max + min))%float in
    let h :=
      if (max =? r)%float
      then ((g - b) / d + (if (g <? b)%float then 6 else 0))%float
      else if (max =? g)%float then ((b - r) / d + 2)%float
      else if (max =? b)%float then ((r - g) / d + 4)%float
      else 0%float in
    ((h / 6 * 360)%float, s, l).

(** The 256 channel values, and their quotients by 255. *)
Definition channelValues : list Z := map Z.of_nat (seq 0 256).

Definition unitChannels : list float :=
  Eval vm_compute in map (fun z => (JS.num z / 255)%float) channelValues.

(** The hue before rounding is a non-negative number at most 360, and the
    saturation and lightness are between 0 and 1. *)
Definition inRange (t : float * float * float) : bool :=
  let '(x, s, l) := t in
  (negb (get_sign x) && (x <=? 360) && (0 <=? s) && (s <=? 1)
   && (0 <=? l) && (l <=? 1))%float.

(** The two digits of a channel. *)
Definition hi (x : Z) : Z := x / 16.
Definition lo (x : Z) : Z := x mod 16.

(** The size of the canvas [extractColors] draws the image on. *)
Definition canvasSize (image : HTMLImageElement) : Z * Z :=
  let scale :=
    JS.min2 1 (150 / JS.max2 (JS.num (naturalWidth image))
                             (JS.num (naturalHeight image)))%float in
  (JS.ToUint32 (JS.Math_floor (JS.num (naturalWidth image) * scale)),
   JS.ToUint32 (JS.Math_floor (JS.num (naturalHeight image) * scale))).

(** The bytes the sampling loop reads. *)
Definition raster (image : HTMLImageElement) : list byte :=
  drawn image (fst (canvasSize image)) (snd (canvasSize image)).

(** The packed key of a quantized colour. *)
Definition keyOf (c : RGB) : Z :=
  JS.bor (JS.bor (JS.shl (r c) 16) (JS.shl (g c) 8)) (b c).

(** The bucket a sampled pixel is counted in: none when its alpha is below
    200. *)
Definition pixelBucket (data : list byte) (i : nat) : option Bucket.t :=
  if (element data (i + 3) <? 200)%float then None
  else Some (Bucket.mk 1 (quantized (element data i))
                         (quantized (element data (i + 1)))
                         (quantized (element data (i + 2)))).

(** A value [(x / 12 | 0) * 12] takes on a byte or on [undefined]. *)
Definition isLevel (z : Z) : bool :=
  (0 <=? z) && (z <=? 252) && (z mod 12 =? 0).

(** The indices the sampling loop visits. *)
Definition visited (data : list byte) (sampleRate : nat) : list nat :=
  match indices (List.length data) (List.length data) (4 * sampleRate) 0 with
  | Some is_ => is_
  | None => []
  end.

(** The keys of the pixels the loop counts at the indices [is_], in the
    order it meets them. *)
Definition keysAt (data : list byte) (is_ : list nat) : list Z :=
  flat_map (fun i => match pixelBucket data i with
                     | Some fresh => [keyOf (rgbOf fresh)]
                     | None => []
                     end) is_.

Definition encounters (data : list byte) (sampleRate : nat) : list Z :=
  keysAt data (visited data sampleRate).

(** The position of the first occurrence of [k] in [l]; the length of [l]
    when there is none. *)
Fixpoint firstIndex (k : Z) (l : list Z) : nat :=
  match l with
  | [] => O
  | x :: t => if x =? k then O else S (firstIndex k t)
  end.

(** What the loop does with the bucket of a counted pixel. *)
Definition countIn (fresh : Bucket.t) (m : ColorCounts) : ColorCounts :=
  let key := keyOf (rgbOf fresh) in
  match Map_get key m with
  | Some existing =>
      Map_set key (Bucket.mk (Bucket.count existing + 1) (Bucket.r existing)
                     (Bucket.g existing) (Bucket.b existing)) m
  | None => Map_set key fresh m
  end.

(** A bucket of quantized channels, filed under its own key. *)
Definition goodEntry (e : Z * Bucket.t) : Prop :=
  keyOf (rgbOf (snd e)) = fst e
  /\ isLevel (Bucket.r (snd e)) = true /\ isLevel (Bucket.g (snd e)) = true
  /\ isLevel (Bucket.b (snd e)) = true.

(** [x] goes in front of [y] in a ranking by [f]: it has the larger [f],
    or the same and [E x y]. *)
Definition ranked {A : Type} (f : A -> Z) (E : A -> A -> Prop) (x y : A) : Prop :=
  f y < f x \/ (f x = f y /\ E x y).

(** Two buckets the distinctness filter keeps apart. *)
Definition far (x y : Bucket.t) : Prop :=
  minDistanceSq < colorDistanceSq (rgbOf x) (rgbOf y).

(** The map after the keys [t] have been met: it holds exactly these keys,
    in the order they were first met, each with a bucket of quantized
    channels that packs to it. *)
Definition tracks (t : list Z) (m : ColorCounts) : Prop :=
  (forall k, In k (map fst m) <-> In k t)
  /\ StronglySorted (fun k1 k2 => (firstIndex k1 t < firstIndex k2 t)%nat) (map fst m)
  /\ Forall goodEntry m.

(** The buckets [all] is made from. *)
Definition ranking (colorCounts : ColorCounts) : list Bucket.t :=
  JS.sort (fun a b => Bucket.count b - Bucket.count a) (map snd colorCounts).

Definition survivors (colorCounts : ColorCounts) (maxColors : nat) : list Bucket.t :=
  distinctLoop maxColors (ranking colorCounts) [].

(** A channel value that is a multiple of the quantization step, at most
    252. *)
Definition quantizedChannel (z : Z) : Prop := 0 <= z <= 252 /\ z mod 12 = 0.

(** The key of [x] is first met before the key of [y]. *)
Definition metBefore (met : list Z) (x y : Bucket.t) : Prop :=
  (firstIndex (keyOf (rgbOf x)) met < firstIndex (keyOf (rgbOf y)) met)%nat.

(** The result of the scenario. *)
Definition scenarioPalette : PaletteAnalysis :=
  let red := colorData (Bucket.mk 1 252 0 0) in
  let blue := colorData (Bucket.mk 1 0 0 252) in
  mkPaletteAnalysis [red; blue] [red] [blue] [] [red; blue].

(** An image without width. *)
Definition emptyImage : HTMLImageElement := mkImage 0 4 (fun _ _ => scenarioData).

(** ** Vocabulary of the further properties *)

(** The number of times the loop met the key [k]. *)
Definition timesMet (met : list Z) (k : Z) : Z :=
  Z.of_nat (count_occ Z.eq_dec met k).

(** The map holds, for each key, the number of times it was met. *)
Definition tallies (t : list Z) (m : ColorCounts) : Prop :=
  Forall (fun e => Bucket.count (snd e) = timesMet t (fst e)) m.

(** A raster of a single pixel without opacity. *)
Definition clearImage : HTMLImageElement :=
  mkImage 1 1 (fun _ _ => [x10; x20; x30; x00]).

(** The value of a byte. *)
Definition channel (v : byte) : Z := Z.of_N (Byte.to_N v).

(** The number of indices [0, step, 2 * step, ...] below [length]. *)
Definition samples (length step : nat) : nat :=
  match length with
  | O => O
  | S l => S (l / step)
  end.

(** The indices [i, i + step, ...] below [length], in closed form. *)
Definition strides (length step i : nat) : list nat :=
  map (fun k => (i + k * step)%nat)
      (seq 0 (if (i <? length)%nat then S ((length - 1 - i) / step) else 0)).

(** A raster of [n] copies of one pixel. *)
Definition solidRaster (r g b a : byte) (n : nat) : list byte :=
  List.concat (repeat [r; g; b; a] n).

(** The floor of a channel to the quantization step. *)
Definition floor12 (v : byte) : Z := channel v / 12 * 12.

(** The lowercase of a character, and of a string. *)
Definition lowerChar (c : ascii) : ascii :=
  if (65 <=? JS.code c) && (JS.code c <=? 90)
  then ascii_of_N (N_of_ascii c + 32) else c.

Fixpoint lowerString (s : string) : string :=
  match s with
  | EmptyString => EmptyString
  | String c t => String (lowerChar c) (lowerString t)
  end.

(** A character of the class [[a-f\d]] has a digit value below 16, whose
    digit is its lowercase. *)
Definition hexCharOk (c : ascii) : bool :=
  if hexClass c then
    match JS.hexValue c with
    | Some d => (0 <=? d) && (d <? 16) && Ascii.eqb (JS.hexDigit d) (lowerChar c)
    | None => false
    end
  else true.

(** The sides of 1 to 150 pixels, which the canvas keeps. *)
Definition smallSides : list Z := map Z.of_nat (seq 1 150).

(** What makes a side of at most 150 pixels keep its length on the canvas:
    it is a number, the scale for it is 1, and the product is floored to
    itself. *)
Definition keepsSide (w : Z) : bool :=
  negb (is_nan (JS.num w))
  && Leibniz.eqb (JS.min2 1 (150 / JS.num w)) 1
  && (JS.ToUint32 (JS.Math_floor (JS.num w * 1)) =? w).

(** ** App.tsx: custom colours, mood analysis and export *)

Module Pixel.
Record t := mk { hex : string; rgb : RGB }.
End Pixel.

(** The end of [handleMouseMove]: the pixel it stores as [hoverPixel], from
    the four bytes [getImageData(0, 0, 1, 1)] reads back. *)
Definition hoverPixel (pixelData : byte * byte * byte * byte) : Pixel.t :=
  let '(p0, p1, p2, _) := pixelData in
  let rgb := mkRGB (Z.of_N (Byte.to_N p0)) (Z.of_N (Byte.to_N p1))
                   (Z.of_N (Byte.to_N p2)) in
  let hex := rgbToHex rgb in
  Pixel.mk hex rgb.

(** [addColorToPalette(pixelObj)], in a render where the state is
    [customColors]: the update it hands to [setCustomColors], the identity
    when it returns without one. *)
Definition addColorToPalette (customColors : list ColorData)
    (pixelObj : option Pixel.t) : list ColorData -> list ColorData :=
  match pixelObj with
  | None => fun prev => prev
  | Some pixelObj =>
      if existsb (fun c => (hex c =? Pixel.hex pixelObj)%string) customColors
      then fun prev => prev
      else
        let hsl := rgbToHsl (Pixel.rgb pixelObj) in
        let newColor :=
          mkColorData (Pixel.hex pixelObj) (Pixel.rgb pixelObj) hsl
                      (categorizeColor hsl) 0 in
        fun prev => prev ++ [newColor]
  end.

(** [removeCustomColor(hexToRemove)]: the update it hands to
    [setCustomColors]. *)
Definition removeCustomColor (hexToRemove : string)
  : list ColorData -> list ColorData :=
  fun prev => filter (fun c => negb (hex c =? hexToRemove)%string) prev.

(** The clicks that change [customColors], each handled in a render of the
    state the click before left. *)
Inductive Click :=
| Add (pixelObj : option Pixel.t)
| Remove (hexToRemove : string).

Definition click (customColors : list ColorData) (e : Click) : list ColorData :=
  match e with
  | Add pixelObj => addColorToPalette customColors pixelObj customColors
  | Remove hexToRemove => removeCustomColor hexToRemove customColors
  end.

(** The custom colours after a run of clicks on a freshly loaded image,
    for which [processFile] empties the list. *)
Definition customColorsAfter (clicks : list Click) : list ColorData :=
  fold_left click clicks [].

(** A click that adds a pixel picked on the image. *)
Definition picked (e : Click) : Prop :=
  match e with
  | Add (Some pixelObj) => exists pixelData, pixelObj = hoverPixel pixelData
  | _ => True
  end.

(** [topColors] of [handleGeminiAnalysis]: what it sends to
    [analyzePaletteMood]. *)
Definition topColors (palette : PaletteAnalysis) : list string :=
  map hex (firstn 5 (all palette)).

(** The calls [handleExportPNG] makes on the canvas context, with the
    [fillStyle], [font] and [textAlign] in force at each. *)
Inductive Draw :=
| fillRect (fillStyle : string) (x y w h : float)
| fillText (fillStyle font textAlign text : string) (x y : float).

Fixpoint forEach {A B : Type} (f : A -> Z -> list B) (l : list A) (i : Z) : list B :=
  match l with
  | [] => []
  | a :: l => f a i ++ forEach f l (i + 1)
  end.

(** [handleExportPNG()]; [today] is [new Date().toLocaleDateString()]. *)
Definition handleExportPNG (palette : option PaletteAnalysis) (context : bool)
    (today : string) : list Draw :=
  match palette with
  | None => []
  | Some palette =>
      if negb context then []
      else
        let colors := firstn 8 (all palette) in
        let width := 800%float in
        let height := 450%float in
        let padding := 50%float in
        let headerHeight := 100%float in
        let gap := 20%float in
        let availableWidth := (width - padding * 2)%float in
        let length := JS.num (Z.of_nat (List.length colors)) in
        let swatchWidth := ((availableWidth - gap * (length - 1)) / length)%float in
        let swatchHeight := 180%float in
        let startY := (headerHeight + 20)%float in
        [fillRect "#ffffff" 0 0 width height;
         fillText "#1e293b" "bold 32px sans-serif" "start" "ChromaLens Palette"
                  padding 60;
         fillText "#94a3b8" "14px sans-serif" "start" today padding 85]
        ++ forEach (fun color i =>
             let x := (padding + JS.num i * (swatchWidth + gap))%float in
             [fillRect (hex color) x startY swatchWidth swatchHeight;
              fillText "#334155" "bold 14px monospace" "center" (hex color)
                       (x + swatchWidth / 2) (startY + swatchHeight + 30)])
             colors 0
  end.

(** The exact value of a finite number. *)
Definition exactValue (x : float) : option Q :=
  match Prim2SF x with
  | S754_zero _ => Some 0%Q
  | S754_finite s m e =>
      Some (inject_Z (if s then Z.neg m else Z.pos m) * Qpower 2 e)%Q
  | _ => None
  end.

(** The swatches among the calls: the rectangles after the background. *)
Definition swatches (calls : list Draw) : list (string * float * float * float * float) :=
  flat_map (fun d => match d with
                     | fillRect c x y w h => [(c, x, y, w, h)]
                     | fillText _ _ _ _ _ _ => []
                     end) (tl calls).

(** A rectangle of positive width between the paddings, from 50 to 750
    across, and from 120 to 300 down, in exact arithmetic. *)
Definition within (s : string * float * float * float * float) : bool :=
  let '(_, x, y, w, h) := s in
  match exactValue x, exactValue y, exactValue w, exactValue h with
  | Some x, Some y, Some w, Some h =>
      Qle_bool 50 x && Qle_bool (x + w) 750 && negb (Qle_bool w 0)
      && Qeq_bool y 120 && Qeq_bool h 180
  | _, _, _, _ => false
  end.

(** [s] ends to the left of where [t] begins. *)
Definition leftOf (s t : string * float * float * float * float) : bool :=
  let '(_, x, _, w, _) := s in
  let '(_, x', _, _, _) := t in
  match exactValue x, exactValue w, exactValue x' with
  | Some x, Some w, Some x' => Qle_bool (x + w) x'
  | _, _, _ => false
  end.

Fixpoint spaced (l : list (string * float * float * float * float)) : bool :=
  match l with
  | [] => true
  | s :: l => forallb (leftOf s) l && spaced l
  end.

(** ** The scenario *)

Lemma scenario_resolved :
  extractColors true scenarioImage 1 8 = Resolved scenarioPalette.
Proof. vm_compute. reflexivity. Qed.

(** C1, as the specification has it, fails: the two near-red pixels fall in
    different buckets, (252,0,0) and (240,0,0), and no entry of the result
    has population 2. *)
Lemma scenario_no_population_2 :
  ~ (exists res red blue,
        extractColors true scenarioImage 1 8 = Resolved res
        /\ all res = [red; blue]
        /\ category red = Warm /\ population red = 2
        /\ category blue = Cool /\ population blue = 1)
  /\ (quantized 255, quantized 0, quantized 0)
     <> (quantized 250, quantized 5, quantized 5).
Proof.
  split.
  - intros (res & red & blue & Hres & Hall & _ & Hpop & _).
    vm_compute in Hres. injection Hres as <-.
    simpl in Hall. injection Hall as <- <-.
    discriminate Hpop.
  - vm_compute. discriminate.
Qed.

(** C1 (amended): on the scenario raster with stride 1 and at most 8 colours,
    the alpha-128 pixel is skipped, the pixels (255,0,0) and (250,5,5) are
    counted in two buckets, (252,0,0) and (240,0,0), of population 1 each,
    the second of which the distinctness filter drops; [all] has exactly two
    entries, #fc0000 (Warm, population 1) first and #0000fc (Cool,
    population 1) second. *)
Theorem scenario_result :
  countColors scenarioData 1
  = Some [(16515072, Bucket.mk 1 252 0 0); (15728640, Bucket.mk 1 240 0 0);
          (252, Bucket.mk 1 0 0 252)]
  /\ colorDistanceSq (mkRGB 252 0 0) (mkRGB 240 0 0) = 144
  /\ exists res red blue,
       extractColors true scenarioImage 1 8 = Resolved res
       /\ all res = [red; blue]
       /\ hex red = "#fc0000"%string /\ rgb red = mkRGB 252 0 0
       /\ category red = Warm /\ population red = 1
       /\ hex blue = "#0000fc"%string /\ rgb blue = mkRGB 0 0 252
       /\ category blue = Cool /\ population blue = 1.
Proof.
  split; [vm_compute; reflexivity|].
  split; [reflexivity|].
  destruct (extractColors true scenarioImage 1 8) as [res| |] eqn:E;
    try (vm_compute in E; discriminate E).
  exists res.
  vm_compute in E. injection E as <-.
  do 2 eexists. cbn. repeat split; reflexivity.
Qed.

(** ** The classifier *)

(** C2: [categorizeColor] applies its rules in order, the first match
    winning: Neutral when saturation <= 0.18 or lightness <= 0.12 or
    lightness >= 0.95; otherwise Warm when the hue is in [0,90) or in
    [315,360]; otherwise Cool.  For a hue in [0,360], saturation 0.5 and
    lightness 0.5 the result is Warm exactly when hue < 90 or hue >= 315, and
    hue 90 gives Cool. *)
Theorem categorizeColor_rules (c : HSL) :
  (neutralRule c -> categorizeColor c = Neutral)
  /\ (~ neutralRule c -> warmRule c -> categorizeColor c = Warm)
  /\ (~ neutralRule c -> ~ warmRule c -> categorizeColor c = Cool)
  /\ (forall hue, JS.le 0 hue -> JS.le hue 360 ->
        (categorizeColor (mkHSL hue 0.5 0.5) = Warm
         <-> JS.lt hue 90 \/ JS.le 315 hue))
  /\ categorizeColor (mkHSL 90 0.5 0.5) = Cool.
Proof.
  destruct c as [hue sat lig].
  unfold neutralRule, warmRule, JS.le, JS.lt, categorizeColor; cbn [h s l].
  split; [|split; [|split; [|split]]].
  - intros [H | [H | H]]; rewrite H; rewrite ?orb_true_r; reflexivity.
  - intros Hn Hw.
    destruct (sat <=? 0.18)%float; [tauto|].
    destruct (lig <=? 0.12)%float; [tauto|].
    destruct (0.95 <=? lig)%float; [tauto|].
    destruct Hw as [[H1 H2] | [H1 H2]]; rewrite H1, H2;
      rewrite ?orb_true_r; reflexivity.
  - intros Hn Hw.
    destruct (sat <=? 0.18)%float; [tauto|].
    destruct (lig <=? 0.12)%float; [tauto|].
    destruct (0.95 <=? lig)%float; [tauto|].
    cbn.
    destruct (0 <=? hue)%float, (hue <? 90)%float, (315 <=? hue)%float,
      (hue <=? 360)%float; cbn; try reflexivity; tauto.
  - intros x H0 H360.
    change ((0.5 <=? 0.18)%float || (0.5 <=? 0.12)%float || (0.95 <=? 0.5)%float)
      with false. cbn.
    rewrite H0, H360, andb_true_r.
    destruct (x <? 90)%float, (315 <=? x)%float; cbn;
      split; intros H; try reflexivity; try discriminate H; try tauto.
    destruct H as [H | H]; discriminate H.
  - reflexivity.
Qed.

Lemma categorizeColor_rules_witness :
  JS.le 0 315 /\ JS.le 315 360
  /\ (categorizeColor (mkHSL 315 0.5 0.5) = Warm <-> JS.lt 315 90 \/ JS.le 315 315).
Proof.
  split; [reflexivity|]. split; [reflexivity|].
  apply (proj1 (proj2 (proj2 (proj2 (categorizeColor_rules (mkHSL 0 0 0))))) 315%float);
    reflexivity.
Defined.

(** ** Hexadecimal strings *)

Lemma hexDigit_cases (d : Z) (P : Z -> Prop) :
  0 <= d < 16 ->
  P 0 -> P 1 -> P 2 -> P 3 -> P 4 -> P 5 -> P 6 -> P 7 -> P 8 -> P 9 ->
  P 10 -> P 11 -> P 12 -> P 13 -> P 14 -> P 15 -> P d.
Proof.
  intros Hd.
  assert (d = 0 \/ d = 1 \/ d = 2 \/ d = 3 \/ d = 4 \/ d = 5 \/ d = 6 \/ d = 7
          \/ d = 8 \/ d = 9 \/ d = 10 \/ d = 11 \/ d = 12 \/ d = 13 \/ d = 14
          \/ d = 15) as H by lia.
  intuition (subst; assumption).
Qed.

Lemma hexDigit_lower (d : Z) : 0 <= d < 16 -> lowerHexChar (JS.hexDigit d) = true.
Proof. intros Hd. apply (hexDigit_cases d); auto. Qed.

Lemma hexDigit_class (d : Z) : 0 <= d < 16 -> hexClass (JS.hexDigit d) = true.
Proof. intros Hd. apply (hexDigit_cases d); auto. Qed.

Lemma hexDigit_value (d : Z) : 0 <= d < 16 -> JS.hexValue (JS.hexDigit d) = Some d.
Proof. intros Hd. apply (hexDigit_cases d); auto. Qed.

Lemma hexDigits_more (fuel : nat) (n d : Z) (acc : string) :
  0 < n -> 0 <= d < 16 ->
  JS.hexDigits (S fuel) (16 * n + d) acc
  = JS.hexDigits fuel n (String (JS.hexDigit d) acc).
Proof.
  intros Hn Hd. cbn [JS.hexDigits].
  replace ((16 * n + d) / 16) with n by (apply Z.div_unique with d; lia).
  replace ((16 * n + d) mod 16) with d by (apply Z.mod_unique with n; lia).
  destruct (Z.eqb_spec n 0); [lia | reflexivity].
Qed.

Lemma shl_byte (x k : Z) :
  0 <= x <= 255 -> 0 <= k <= 16 -> JS.shl x k = x * 2 ^ k.
Proof.
  intros Hx Hk. unfold JS.shl, JS.wrap32.
  rewrite (Z.mod_small k 32) by lia.
  replace ((x + 2 ^ 31) mod 2 ^ 32) with (x + 2 ^ 31) by (rewrite Z.mod_small; lia).
  replace (x + 2 ^ 31 - 2 ^ 31) with x by lia.
  rewrite Z.shiftl_mul_pow2 by lia.
  assert (0 < 2 ^ k <= 2 ^ 16)
    by (split; [apply Z.pow_pos_nonneg; lia | apply Z.pow_le_mono_r; lia]).
  rewrite Z.mod_small; [lia|].
  change (2 ^ 16) with 65536 in *. change (2 ^ 31) with 2147483648.
  change (2 ^ 32) with 4294967296. nia.
Qed.

Lemma hi_lo (x : Z) : 0 <= x <= 255 -> 0 <= hi x < 16 /\ 0 <= lo x < 16 /\ x = 16 * hi x + lo x.
Proof.
  intros Hx. unfold hi, lo.
  pose proof (Z.div_mod x 16 ltac:(lia)). pose proof (Z.mod_pos_bound x 16 ltac:(lia)).
  lia.
Qed.

(** The string [rgbToHex] builds for 8-bit channels: [#] and two digits per
    channel. *)
Lemma rgbToHex_digits (c : RGB) :
  validRGB c ->
  rgbToHex c =
  String "#" (String (JS.hexDigit (hi (r c))) (String (JS.hexDigit (lo (r c)))
    (String (JS.hexDigit (hi (g c))) (String (JS.hexDigit (lo (g c)))
      (String (JS.hexDigit (hi (b c))) (String (JS.hexDigit (lo (b c)))
        EmptyString)))))).
Proof.
  intros (Hr & Hg & Hb). unfold rgbToHex.
  destruct (hi_lo _ Hr) as (Hr1 & Hr0 & Er).
  destruct (hi_lo _ Hg) as (Hg1 & Hg0 & Eg).
  destruct (hi_lo _ Hb) as (Hb1 & Hb0 & Eb).
  rewrite (shl_byte (r c) 16), (shl_byte (g c) 8) by lia.
  change (JS.shl 1 24) with 16777216.
  change (2 ^ 16) with 65536. change (2 ^ 8) with 256.
  set (n := 16777216 + r c * 65536 + g c * 256 + b c).
  assert (Hn : 16777216 <= n < 33554432) by (unfold n; lia).
  unfold JS.toString16.
  rewrite Z.abs_eq by lia.
  replace (Z.log2 n) with 24
    by (symmetry; apply Z.log2_unique; [lia | change (2 ^ 24) with 16777216;
        change (2 ^ (24 + 1)) with 33554432; lia]).
  destruct (Z.ltb_spec n 0); [lia|].
  change (S (Z.to_nat 24)) with 25%nat.
  replace n with
    (16 * (16 * (16 * (16 * (16 * (16 * 1 + hi (r c)) + lo (r c)) + hi (g c))
                 + lo (g c)) + hi (b c)) + lo (b c)) by (unfold n; lia).
  repeat (rewrite hexDigits_more by lia).
  reflexivity.
Qed.

Lemma parseInt16_pair (d1 d0 : Z) :
  0 <= d1 < 16 -> 0 <= d0 < 16 ->
  JS.parseInt16 (String (JS.hexDigit d1) (String (JS.hexDigit d0) EmptyString))
  = 16 * d1 + d0.
Proof.
  intros H1 H0. unfold JS.parseInt16. cbn [JS.parseDigits].
  rewrite !hexDigit_value by assumption. cbn [JS.parseDigits]. lia.
Qed.

Lemma hexToRgb_rgbToHex (c : RGB) : validRGB c -> hexToRgb (rgbToHex c) = Some c.
Proof.
  intros Hc. rewrite (rgbToHex_digits c Hc).
  destruct Hc as (Hr & Hg & Hb).
  destruct (hi_lo _ Hr) as (Hr1 & Hr0 & Er).
  destruct (hi_lo _ Hg) as (Hg1 & Hg0 & Eg).
  destruct (hi_lo _ Hb) as (Hb1 & Hb0 & Eb).
  unfold hexToRgb, execHex, groups. cbn [optionalHash].
  do 3 (cbn [group2]; rewrite !hexDigit_class by assumption; cbn [andb]).
  rewrite !parseInt16_pair by assumption.
  destruct c as [cr cg cb]. cbn [r g b] in *. congruence.
Qed.

(** C4: for 8-bit channels, [hexToRgb (rgbToHex rgb)] is [rgb], and
    [rgbToHex rgb] is a string of 7 characters, [#] and six lowercase
    hexadecimal digits. *)
Theorem hex_round_trip (c : RGB) :
  validRGB c ->
  hexToRgb (rgbToHex c) = Some c
  /\ String.length (rgbToHex c) = 7%nat
  /\ canonicalHex (rgbToHex c).
Proof.
  intros Hc. split; [apply hexToRgb_rgbToHex; assumption|].
  rewrite (rgbToHex_digits c Hc).
  destruct Hc as (Hr & Hg & Hb).
  destruct (hi_lo _ Hr) as (Hr1 & Hr0 & _).
  destruct (hi_lo _ Hg) as (Hg1 & Hg0 & _).
  destruct (hi_lo _ Hb) as (Hb1 & Hb0 & _).
  split; [reflexivity|].
  do 6 eexists. split; [reflexivity|].
  repeat constructor; apply hexDigit_lower; assumption.
Qed.

Lemma hex_round_trip_witness :
  validRGB (mkRGB 18 171 255)
  /\ hexToRgb (rgbToHex (mkRGB 18 171 255)) = Some (mkRGB 18 171 255)
  /\ String.length (rgbToHex (mkRGB 18 171 255)) = 7%nat
  /\ canonicalHex (rgbToHex (mkRGB 18 171 255)).
Proof.
  assert (H : validRGB (mkRGB 18 171 255)) by (unfold validRGB; cbn; lia).
  split; [exact H | apply (hex_round_trip (mkRGB 18 171 255) H)].
Defined.

Lemma hexClass_hexDigitChar (c : ascii) : hexClass c = hexDigitChar c.
Proof. destruct c as [[] [] [] [] [] [] [] []]; reflexivity. Qed.

Lemma optionalHash_cases (hex : string) :
  (exists rest, hex = String "#" rest /\ optionalHash hex = rest)
  \/ ((forall rest, hex <> String "#" rest) /\ optionalHash hex = hex).
Proof.
  destruct hex as [| [[] [] [] [] [] [] [] []] rest];
    first [ left; eexists; split; reflexivity
          | right; split; [intros; discriminate | reflexivity] ].
Qed.

Lemma groups_six (c1 c2 c3 c4 c5 c6 : ascii) :
  Forall (fun c => hexClass c = true) [c1; c2; c3; c4; c5; c6] ->
  groups (String c1 (String c2 (String c3 (String c4 (String c5 (String c6
            EmptyString))))))
  = Some (String c1 (String c2 EmptyString), String c3 (String c4 EmptyString),
          String c5 (String c6 EmptyString)).
Proof.
  intros H.
  repeat match goal with
         | H : Forall _ (_ :: _) |- _ => inversion H; clear H; subst
         end.
  unfold groups.
  repeat (cbn [group2 andb];
          match goal with
          | H : hexClass ?c = true |- context [hexClass ?c] => rewrite H
          end).
  reflexivity.
Qed.

Lemma groups_Some (body : string) (gs : string * string * string) :
  groups body = Some gs ->
  exists c1 c2 c3 c4 c5 c6,
    body = String c1 (String c2 (String c3 (String c4 (String c5 (String c6
             EmptyString)))))
    /\ Forall (fun c => hexClass c = true) [c1; c2; c3; c4; c5; c6].
Proof.
  unfold groups, group2.
  destruct body as [|c1 [|c2 [|c3 [|c4 [|c5 [|c6 [|c7 rest]]]]]]];
    try discriminate;
    repeat match goal with
           | |- context [hexClass ?c && _] =>
               destruct (hexClass c) eqn:?; cbn [andb]; try discriminate
           | |- context [if hexClass ?c then _ else _] =>
               destruct (hexClass c) eqn:?; try discriminate
           end;
    try discriminate.
  intros _. exists c1, c2, c3, c4, c5, c6. split; [reflexivity|].
  repeat constructor; assumption.
Qed.

Lemma string_of_length_6 (digits : string) :
  String.length digits = 6%nat ->
  exists c1 c2 c3 c4 c5 c6,
    digits = String c1 (String c2 (String c3 (String c4 (String c5 (String c6
               EmptyString))))).
Proof.
  destruct digits as [|c1 [|c2 [|c3 [|c4 [|c5 [|c6 [|c7 rest]]]]]]];
    cbn; try discriminate.
  intros _. do 6 eexists. reflexivity.
Qed.

(** C9: [hexToRgb] returns an RGB value exactly on an optional leading [#]
    followed by exactly six hexadecimal digits of either case, and null
    (here [None]: the function is total) on every other string, such as
    ["not-a-color"]. *)
Theorem hexToRgb_accepts (hex : string) :
  ((exists c, hexToRgb hex = Some c) <-> wellFormedHex hex)
  /\ (~ wellFormedHex hex -> hexToRgb hex = None)
  /\ hexToRgb "not-a-color" = None.
Proof.
  assert (Hiff : (exists c, hexToRgb hex = Some c) <-> wellFormedHex hex).
  { unfold hexToRgb, execHex. split.
    - intros [c Hc].
      destruct (groups (optionalHash hex)) as [gs|] eqn:E; [|discriminate].
      apply groups_Some in E. destruct E as (c1 & c2 & c3 & c4 & c5 & c6 & E & Hall).
      exists (optionalHash hex). split; [|split].
      + destruct (optionalHash_cases hex) as [(rest & -> & ->) | (_ & ->)]; auto.
      + rewrite E. reflexivity.
      + rewrite E. cbn [list_ascii_of_string].
        eapply Forall_impl; [|exact Hall].
        intros a Ha. rewrite <- hexClass_hexDigitChar. exact Ha.
    - intros (digits & Hs & Hlen & Hall).
      destruct (string_of_length_6 digits Hlen) as (c1 & c2 & c3 & c4 & c5 & c6 & ->).
      cbn [list_ascii_of_string] in Hall.
      assert (Hcls : Forall (fun c => hexClass c = true) [c1; c2; c3; c4; c5; c6]).
      { eapply Forall_impl; [|exact Hall].
        intros a Ha. rewrite hexClass_hexDigitChar. exact Ha. }
      assert (Hbody : optionalHash hex
                      = String c1 (String c2 (String c3 (String c4 (String c5
                          (String c6 EmptyString)))))).
      { destruct Hs as [-> | ->]; [|reflexivity].
        destruct (optionalHash_cases
                    (String c1 (String c2 (String c3 (String c4 (String c5
                       (String c6 EmptyString)))))))
          as [(rest & Hrest & _) | (_ & ->)]; [|reflexivity].
        injection Hrest as -> _. inversion Hall; subst. discriminate. }
      rewrite Hbody, (groups_six _ _ _ _ _ _ Hcls). eexists. reflexivity. }
  split; [exact Hiff|]. split; [|reflexivity].
  intros Hn. destruct (hexToRgb hex) as [c|] eqn:E; [|reflexivity].
  exfalso. apply Hn, Hiff. exists c. reflexivity.
Qed.

(** ** Hue, saturation and lightness *)

Lemma Prim2SF_sign (x : float) :
  match Prim2SF x with
  | S754_zero s | S754_infinity s | S754_finite s _ _ => s = get_sign x
  | S754_nan => True
  end.
Proof.
  pose proof (SF2Prim_Prim2SF x) as Ex.
  destruct (Prim2SF x) as [s0 | s0 | | s0 m e] eqn:E.
  - rewrite <- Ex. destruct s0; reflexivity.
  - rewrite <- Ex. destruct s0; reflexivity.
  - exact I.
  - clear Ex. unfold Prim2SF in E.
    destruct (is_nan x); [discriminate|].
    destruct (is_zero x); [discriminate|].
    destruct (is_infinity x); [discriminate|].
    destruct (Z.frexp x) as [fm fe].
    destruct (shr_fexp _ _ _ _ _) as [shr e'].
    destruct (shr_m shr); try discriminate.
    injection E as <- _ _. reflexivity.
Qed.

Lemma digits2_pos_bound (m : positive) : Z.pos m < 2 ^ Z.pos (digits2_pos m).
Proof.
  induction m as [p IH | p IH |]; cbn [digits2_pos].
  - rewrite Pos2Z.inj_succ, Z.pow_succ_r by lia. lia.
  - rewrite Pos2Z.inj_succ, Z.pow_succ_r by lia. lia.
  - reflexivity.
Qed.

Lemma Prim2SF_mantissa (x : float) (s : bool) (m : positive) (e : Z) :
  Prim2SF x = S754_finite s m e -> Z.pos m < 2 ^ 53.
Proof.
  intros E. pose proof (Prim2SF_valid x) as V. rewrite E in V.
  unfold SpecFloat.valid_binary, bounded, canonical_mantissa, fexp in V.
  apply andb_prop in V. destruct V as [V _]. apply Z.eqb_eq in V.
  pose proof (digits2_pos_bound m) as B.
  assert (Z.pos (digits2_pos m) <= 53) by (unfold prec in V; lia).
  eapply Z.lt_le_trans; [exact B|]. apply Z.pow_le_mono_r; lia.
Qed.

Lemma SFleb_finite (m m' : positive) (e e' : Z) :
  SFleb (S754_finite false m e) (S754_finite false m' e') = true ->
  e < e' \/ (e = e' /\ (m <= m')%positive).
Proof.
  unfold SFleb, SFcompare.
  destruct (Z.compare_spec e e') as [E0 | Hlt | Hgt]; [|left; assumption|discriminate].
  rewrite Pos.compare_cont_spec. unfold Pos.switch_Eq.
  intros H. right. split; [assumption|].
  apply Pos.compare_le_iff. intros C. rewrite C in H. discriminate H.
Qed.

(** [Math.round] of a non-negative number that is at most 360 is one of the
    integers 0, ..., 360. *)
Lemma Math_round_range (x : float) :
  get_sign x = false -> JS.le x 360 ->
  exists n, 0 <= n <= 360 /\ JS.Math_round x = JS.num n.
Proof.
  intros Hs Hle. unfold JS.le in Hle. rewrite leb_spec in Hle.
  pose proof (Prim2SF_sign x) as Sg. pose proof (Prim2SF_mantissa x) as Mb.
  pose proof (SF2Prim_Prim2SF x) as Ex.
  unfold JS.Math_round.
  change (Prim2SF 360) with (S754_finite false 6333186975989760 (-44)) in Hle.
  destruct (Prim2SF x) as [s0 | s0 | | s0 m e].
  - exists 0. split; [lia|]. rewrite <- Ex, Sg, Hs. reflexivity.
  - rewrite Sg, Hs in Hle. discriminate Hle.
  - discriminate Hle.
  - rewrite Sg, Hs in *. specialize (Mb false m e eq_refl).
    apply SFleb_finite in Hle.
    assert (He : e <= -44 /\ Z.pos m <= 360 * 2 ^ (- e)).
    { destruct Hle as [Hlt | [E0 C]].
      - split; [lia|].
        assert (2 ^ 45 <= 2 ^ (- e)) by (apply Z.pow_le_mono_r; lia).
        change (2 ^ 53) with (256 * 2 ^ 45) in Mb.
        generalize dependent (2 ^ 45). generalize (2 ^ (- e)). clear. lia.
      - rewrite E0. change (2 ^ (- -44)) with 17592186044416.
        split; [reflexivity|]. exact (Pos2Z.pos_le_pos _ _ C). }
    destruct He as [He Hm]. clear Hle Mb Ex.
    destruct (Z.leb_spec 0 e) as [Hpos | Hneg]; [lia|].
    rewrite Z.shiftr_div_pow2, Z.shiftl_mul_pow2 by lia.
    replace (1 - e) with (Z.succ (- e)) by lia.
    rewrite Z.pow_succ_r by lia.
    set (P := 2 ^ (- e)) in *.
    assert (0 < P) by (apply Z.pow_pos_nonneg; lia).
    set (n := (2 * Z.pos m + 1 * P) / (2 * P)).
    assert (0 <= n) by (apply Z.div_pos; lia).
    assert (n < 361) by (apply Z.div_lt_upper_bound; lia).
    exists n. split; [lia|].
    unfold JS.integral. destruct (Z.eqb_spec n 0) as [-> |]; reflexivity.
Qed.

Lemma rgbToHsl_unit (c : RGB) :
  rgbToHsl c =
  let '(x, s, l) := hslOfUnit (JS.num (r c) / 255) (JS.num (g c) / 255)
                              (JS.num (b c) / 255) in
  mkHSL (JS.Math_round x) s l.
Proof.
  unfold rgbToHsl, hslOfUnit.
  destruct (JS.Math_max _ _ _ =? JS.Math_min _ _ _)%float; reflexivity.
Qed.

Lemma channelValues_In (z : Z) : 0 <= z <= 255 -> In z channelValues.
Proof.
  intros Hz. unfold channelValues. apply in_map_iff.
  exists (Z.to_nat z). split; [lia|]. apply in_seq. lia.
Qed.

Lemma unitChannels_In (z : Z) :
  0 <= z <= 255 -> In (JS.num z / 255)%float unitChannels.
Proof.
  intros Hz.
  change unitChannels with (map (fun z => (JS.num z / 255)%float) channelValues).
  apply (in_map (fun z => (JS.num z / 255)%float)), channelValues_In, Hz.
Qed.

Lemma forallb3_In {A : Type} (f : A -> A -> A -> bool) (l : list A) :
  forallb (fun a => forallb (fun b => forallb (fun c => f a b c) l) l) l = true ->
  forall a b c, In a l -> In b l -> In c l -> f a b c = true.
Proof.
  intros H a b c Ha Hb Hc.
  rewrite forallb_forall in H. specialize (H a Ha).
  rewrite forallb_forall in H. specialize (H b Hb).
  rewrite forallb_forall in H. exact (H c Hc).
Qed.

(** All 256 * 256 * 256 triples of channels, by computation. *)
Lemma unitChannels_inRange :
  forallb (fun r =>
    forallb (fun g =>
      forallb (fun b => inRange (hslOfUnit r g b)) unitChannels)
      unitChannels)
    unitChannels = true.
Proof. vm_compute. reflexivity. Qed.

Lemma unitChannels_gray :
  forallb (fun x => (JS.Math_max x x x =? JS.Math_min x x x)%float) unitChannels
  = true.
Proof. vm_compute. reflexivity. Qed.

Lemma hslOfUnit_inRange (c : RGB) :
  validRGB c ->
  inRange (hslOfUnit (JS.num (r c) / 255) (JS.num (g c) / 255)
                     (JS.num (b c) / 255)) = true.
Proof.
  intros (Hr & Hg & Hb).
  apply (forallb3_In (fun r g b => inRange (hslOfUnit r g b)) unitChannels
           unitChannels_inRange);
    apply unitChannels_In; assumption.
Qed.

Lemma rgbToHsl_range (c : RGB) :
  validRGB c ->
  (exists n, 0 <= n <= 360 /\ h (rgbToHsl c) = JS.num n)
  /\ JS.le 0 (s (rgbToHsl c)) /\ JS.le (s (rgbToHsl c)) 1
  /\ JS.le 0 (l (rgbToHsl c)) /\ JS.le (l (rgbToHsl c)) 1.
Proof.
  intros Hc. pose proof (hslOfUnit_inRange c Hc) as H.
  rewrite rgbToHsl_unit.
  destruct (hslOfUnit _ _ _) as [[x sat] lig]. cbn [h s l].
  unfold inRange in H.
  repeat (apply andb_prop in H; destruct H as [H ?]).
  apply negb_true_iff in H.
  split; [apply Math_round_range; assumption|].
  unfold JS.le. auto.
Qed.

Lemma rgbToHsl_gray (c : RGB) :
  validRGB c -> r c = g c -> g c = b c ->
  h (rgbToHsl c) = 0%float /\ s (rgbToHsl c) = 0%float.
Proof.
  intros (Hr & _ & _) Hrg Hgb.
  pose proof unitChannels_gray as H.
  rewrite forallb_forall in H. specialize (H _ (unitChannels_In _ Hr)).
  unfold rgbToHsl. rewrite <- Hgb, <- Hrg. rewrite H. split; reflexivity.
Qed.

(** C3, as the specification has it, fails: the hue of (255,0,1) is 360,
    which is not below 360. *)
Lemma hue_360_reached :
  validRGB (mkRGB 255 0 1)
  /\ h (rgbToHsl (mkRGB 255 0 1)) = 360%float
  /\ ~ JS.lt (h (rgbToHsl (mkRGB 255 0 1))) 360.
Proof.
  split; [unfold validRGB; cbn; lia|].
  split; [vm_compute; reflexivity|].
  unfold JS.lt. vm_compute. discriminate.
Qed.

(** C3 (amended): for 8-bit channels, [rgbToHsl] returns a hue that is an
    integer between 0 and 360 inclusive, a saturation and a lightness between
    0 and 1, and, when the largest channel equals the smallest, hue 0 and
    saturation 0. *)
Theorem rgbToHsl_bounds (c : RGB) :
  validRGB c ->
  (exists n, 0 <= n <= 360 /\ h (rgbToHsl c) = JS.num n)
  /\ JS.le 0 (s (rgbToHsl c)) /\ JS.le (s (rgbToHsl c)) 1
  /\ JS.le 0 (l (rgbToHsl c)) /\ JS.le (l (rgbToHsl c)) 1
  /\ (Z.max (Z.max (r c) (g c)) (b c) = Z.min (Z.min (r c) (g c)) (b c) ->
      h (rgbToHsl c) = 0%float /\ s (rgbToHsl c) = 0%float).
Proof.
  intros Hc. destruct (rgbToHsl_range c Hc) as (Hh & Hs0 & Hs1 & Hl0 & Hl1).
  repeat (split; [assumption|]).
  intros Hgray. apply rgbToHsl_gray; [assumption | lia | lia].
Qed.

Lemma rgbToHsl_bounds_witness :
  validRGB (mkRGB 12 13 200)
  /\ (exists n, 0 <= n <= 360 /\ h (rgbToHsl (mkRGB 12 13 200)) = JS.num n).
Proof.
  assert (H : validRGB (mkRGB 12 13 200)) by (unfold validRGB; cbn; lia).
  split; [exact H | exact (proj1 (rgbToHsl_bounds (mkRGB 12 13 200) H))].
Defined.

(** ** The canvas *)

Lemma mul_zero_canvas (y : float) :
  JS.ToUint32 (JS.Math_floor (PrimFloat.zero * y)) = 0.
Proof.
  assert (H : Prim2SF (PrimFloat.zero * y) = S754_nan
              \/ exists s0, Prim2SF (PrimFloat.zero * y) = S754_zero s0).
  { rewrite mul_spec.
    change (Prim2SF PrimFloat.zero) with (S754_zero false).
    destruct (Prim2SF y) as [s0 | s0 | | s0 m e]; cbn; eauto. }
  unfold JS.ToUint32, JS.truncate, JS.Math_floor.
  destruct H as [H | [s0 H]]; rewrite H; rewrite H; reflexivity.
Qed.

Lemma canvasSize_zero (image : HTMLImageElement) :
  naturalWidth image = 0 \/ naturalHeight image = 0 ->
  fst (canvasSize image) = 0 \/ snd (canvasSize image) = 0.
Proof.
  unfold canvasSize. cbn [fst snd].
  intros [H | H]; rewrite H; [left | right]; apply mul_zero_canvas.
Qed.

Lemma extractColors_steps (context : bool) (image : HTMLImageElement)
    (sampleRate maxColors : nat) :
  extractColors context image sampleRate maxColors =
  if negb context then Rejected (Error "Could not get canvas context")
  else if (fst (canvasSize image) =? 0) || (snd (canvasSize image) =? 0)
       then Rejected (DOMException "IndexSizeError")
       else match countColors (raster image) sampleRate with
            | None => Pending
            | Some colorCounts => Resolved (analyse colorCounts maxColors)
            end.
Proof.
  unfold extractColors, getImageData, raster, canvasSize. cbn [fst snd].
  destruct context; cbn [negb]; [|reflexivity].
  destruct (_ || _); reflexivity.
Qed.

(** C6: for an image without width or without height the promise is
    rejected, whatever the stride and the pixels: the canvas is 0 pixels
    wide or high and [getImageData] throws before the sampling loop is
    reached, so that no pixel is sampled and no palette is made.  The failure
    is the canvas's [IndexSizeError] (or the missing context, when there is
    none). *)
Theorem zero_size_rejected (context : bool) (image : HTMLImageElement)
    (sampleRate maxColors : nat) :
  naturalWidth image = 0 \/ naturalHeight image = 0 ->
  extractColors context image sampleRate maxColors
  = Rejected (if context then DOMException "IndexSizeError"
              else Error "Could not get canvas context").
Proof.
  intros H. rewrite extractColors_steps.
  destruct context; cbn [negb]; [|reflexivity].
  destruct (canvasSize_zero image H) as [-> | ->];
    rewrite ?orb_true_r; reflexivity.
Qed.

Lemma zero_size_rejected_witness :
  (naturalWidth emptyImage = 0 \/ naturalHeight emptyImage = 0)
  /\ extractColors true emptyImage 1 8 = Rejected (DOMException "IndexSizeError").
Proof.
  split; [left; reflexivity|].
  apply (zero_size_rejected true emptyImage 1 8). left. reflexivity.
Defined.

(** ** The sampling loop *)

Lemma indices_total (fuel length step i : nat) :
  (1 <= step)%nat -> (length <= i + fuel)%nat ->
  exists visited, indices fuel length step i = Some visited.
Proof.
  intros Hstep. revert i.
  induction fuel as [|fuel IH]; intros i Hi; cbn [indices].
  - destruct (Nat.ltb_spec i length); [lia | eauto].
  - destruct (Nat.ltb_spec i length); [|eauto].
    destruct (IH (i + step)%nat ltac:(lia)) as [visited ->]. cbn. eauto.
Qed.

Lemma countColors_total (data : list byte) (sampleRate : nat) :
  (1 <= sampleRate)%nat -> exists colorCounts, countColors data sampleRate = Some colorCounts.
Proof.
  intros H. unfold countColors.
  destruct (indices_total (List.length data) (List.length data) (4 * sampleRate) 0)
    as [visited ->]; [lia | lia |]. cbn. eauto.
Qed.

Lemma quantized_byte (v : byte) :
  quantized (JS.num (Z.of_N (Byte.to_N v))) = Z.of_N (Byte.to_N v) / 12 * 12.
Proof. destruct v; vm_compute; reflexivity. Qed.

Lemma quantized_element (data : list byte) (i : nat) :
  isLevel (quantized (element data i)) = true.
Proof.
  unfold element. destruct (nth_error data i) as [v|]; [|reflexivity].
  rewrite quantized_byte.
  pose proof (Byte.to_N_bounded v) as Hv.
  assert (Hz : 0 <= Z.of_N (Byte.to_N v) <= 255) by lia.
  generalize dependent (Z.of_N (Byte.to_N v)). intros z Hz.
  unfold isLevel.
  assert (0 <= z / 12) by (apply Z.div_pos; lia).
  assert (z / 12 < 22) by (apply Z.div_lt_upper_bound; lia).
  rewrite Z.mod_mul by lia.
  destruct (Z.leb_spec 0 (z / 12 * 12)); [|lia].
  destruct (Z.leb_spec (z / 12 * 12) 252); [|lia]. reflexivity.
Qed.

(** ** Lists in order *)

Section Lists.
Context {A : Type} (R : A -> A -> Prop).

Lemma StronglySorted_app (l1 l2 : list A) :
  StronglySorted R (l1 ++ l2) <->
  StronglySorted R l1 /\ StronglySorted R l2
  /\ (forall x y, In x l1 -> In y l2 -> R x y).
Proof.
  induction l1 as [|a l1 IH]; cbn.
  - split; [intros H | intros (_ & H & _); exact H].
    repeat split; [constructor | exact H | intros x y []].
  - split.
    + intros H. inversion H as [|? ? Hs Hf]; subst.
      apply IH in Hs. destruct Hs as (H1 & H2 & H12).
      rewrite Forall_app in Hf. destruct Hf as [Hf1 Hf2].
      repeat split; [constructor; assumption | assumption |].
      intros x y [<- | Hx] Hy; [|auto].
      rewrite Forall_forall in Hf2. auto.
    + intros (H1 & H2 & H12). inversion H1 as [|? ? Hs Hf]; subst.
      constructor.
      * apply IH. repeat split; auto.
      * rewrite Forall_app. split; [assumption|].
        rewrite Forall_forall. intros y Hy. apply H12; [left; reflexivity | assumption].
Qed.

Lemma StronglySorted_nth (l : list A) :
  StronglySorted R l ->
  forall i j x y, (i < j)%nat ->
    nth_error l i = Some x -> nth_error l j = Some y -> R x y.
Proof.
  induction 1 as [|a l Hs IH Hf]; intros i j x y Hij Hi Hj.
  - destruct i; discriminate.
  - destruct j as [|j]; [lia|]. cbn in Hj.
    destruct i as [|i]; cbn in Hi.
    + injection Hi as <-. rewrite Forall_forall in Hf.
      apply Hf. eapply nth_error_In; eassumption.
    + apply (IH i j); [lia | assumption | assumption].
Qed.

Lemma StronglySorted_weaken (R' : A -> A -> Prop) (l : list A) :
  (forall x y, In x l -> In y l -> R x y -> R' x y) ->
  StronglySorted R l -> StronglySorted R' l.
Proof.
  intros Himp H. induction H as [|a l Hs IH Hf].
  - constructor.
  - constructor.
    + apply IH. intros x y Hx Hy. apply Himp; right; assumption.
    + rewrite Forall_forall in *. intros y Hy.
      apply Himp; [left; reflexivity | right; assumption | auto].
Qed.
End Lists.

Lemma StronglySorted_map {A B : Type} (f : A -> B) (R : B -> B -> Prop) (l : list A) :
  StronglySorted (fun x y => R (f x) (f y)) l <-> StronglySorted R (map f l).
Proof.
  induction l as [|a l IH]; cbn.
  - split; constructor.
  - split; intros H; inversion H; subst; constructor;
      try (apply IH; assumption);
      rewrite Forall_forall in *.
    + intros y Hy. apply in_map_iff in Hy. destruct Hy as (x & <- & Hx). auto.
    + intros x Hx. match goal with H : forall _, In _ (map f l) -> _ |- _ => apply H end.
      apply in_map. assumption.
Qed.

(** ** The ranking *)

Section Ranking.
Context {A : Type} (f : A -> Z).

Lemma insert_In (x z : A) (l : list A) :
  In z (JS.insert (fun a b => f b - f a) x l) <-> z = x \/ In z l.
Proof.
  induction l as [|y t IH]; cbn.
  - intuition.
  - destruct (f y - f x <=? 0); cbn; [intuition | rewrite IH; intuition].
Qed.

Lemma sort_In (z : A) (l : list A) :
  In z (JS.sort (fun a b => f b - f a) l) <-> In z l.
Proof.
  induction l as [|x t IH]; cbn; [reflexivity|].
  rewrite insert_In, IH. intuition.
Qed.

Context (E : A -> A -> Prop).

Lemma insert_stable (x : A) (l : list A) :
  Forall (E x) l -> StronglySorted (ranked f E) l ->
  StronglySorted (ranked f E) (JS.insert (fun a b => f b - f a) x l).
Proof.
  intros HE Hs. induction Hs as [|y t Hs IH Hf]; cbn.
  - repeat constructor.
  - inversion HE as [|? ? Exy Et]; subst.
    destruct (Z.leb_spec (f y - f x) 0) as [Hle | Hgt].
    + constructor; [constructor; assumption|].
      constructor.
      * unfold ranked. destruct (Z.eq_dec (f x) (f y)); [right; auto | left; lia].
      * rewrite Forall_forall in *. intros z Hz.
        specialize (Hf z Hz). specialize (Et z Hz). unfold ranked in *.
        destruct (Z.eq_dec (f x) (f z)); [right; auto | left; lia].
    + constructor; [apply IH; assumption|].
      rewrite Forall_forall in *. intros z Hz.
      apply insert_In in Hz. destruct Hz as [-> | Hz]; [|auto].
      left. lia.
Qed.

(** The sort is stable: buckets that were in the order [E] and tie stay
    in that order. *)
Lemma sort_stable (l : list A) :
  StronglySorted E l ->
  StronglySorted (ranked f E) (JS.sort (fun a b => f b - f a) l).
Proof.
  induction 1 as [|x t Hs IH Hf]; cbn; [constructor|].
  apply insert_stable; [|assumption].
  rewrite Forall_forall in *. intros z Hz. apply Hf, sort_In, Hz.
Qed.
End Ranking.

(** ** The map of buckets *)

Lemma Map_get_None (k : Z) (m : ColorCounts) :
  Map_get k m = None <-> ~ In k (map fst m).
Proof.
  induction m as [|[k0 v0] m IH]; cbn; [tauto|].
  destruct (Z.eqb_spec k0 k).
  - split; [discriminate | tauto].
  - rewrite IH. tauto.
Qed.

Lemma Map_get_Some (k : Z) (v : Bucket.t) (m : ColorCounts) :
  Map_get k m = Some v -> In (k, v) m.
Proof.
  induction m as [|[k0 v0] m IH]; cbn; [discriminate|].
  destruct (Z.eqb_spec k0 k) as [-> |].
  - intros [= ->]. left. reflexivity.
  - intros H. right. apply IH, H.
Qed.

Lemma Map_set_absent (k : Z) (v : Bucket.t) (m : ColorCounts) :
  ~ In k (map fst m) -> Map_set k v m = m ++ [(k, v)].
Proof.
  induction m as [|[k0 v0] m IH]; cbn; [reflexivity|].
  intros H. destruct (Z.eqb_spec k0 k); [tauto|].
  rewrite IH by tauto. reflexivity.
Qed.

Lemma Map_set_present (k : Z) (v : Bucket.t) (m : ColorCounts) :
  In k (map fst m) -> map fst (Map_set k v m) = map fst m.
Proof.
  induction m as [|[k0 v0] m IH]; cbn; [tauto|].
  intros H. destruct (Z.eqb_spec k0 k); cbn; [reflexivity|].
  rewrite IH; [reflexivity | tauto].
Qed.

Lemma Map_set_Forall (P : Z * Bucket.t -> Prop) (k : Z) (v : Bucket.t)
    (m : ColorCounts) :
  Forall P m -> P (k, v) -> Forall P (Map_set k v m).
Proof.
  intros Hm Hv. induction Hm as [|e m' He Hm IH]; cbn.
  - repeat constructor. exact Hv.
  - destruct e as [k0 v0].
    destruct (Z.eqb_spec k0 k) as [-> |]; constructor; assumption.
Qed.

Lemma firstIndex_lt (k : Z) (l : list Z) :
  In k l <-> (firstIndex k l < List.length l)%nat.
Proof.
  induction l as [|x t IH]; cbn; [split; [tauto | lia]|].
  destruct (Z.eqb_spec x k); [split; [lia | auto]|].
  rewrite <- Nat.succ_lt_mono, <- IH. tauto.
Qed.

Lemma firstIndex_app (k : Z) (l l' : list Z) :
  In k l -> firstIndex k (l ++ l') = firstIndex k l.
Proof.
  induction l as [|x t IH]; cbn; [tauto|].
  destruct (Z.eqb_spec x k); [reflexivity|].
  intros [H | H]; [contradiction | rewrite IH by assumption; reflexivity].
Qed.

Lemma firstIndex_new (k : Z) (l l' : list Z) :
  ~ In k l -> firstIndex k (l ++ k :: l') = List.length l.
Proof.
  induction l as [|x t IH]; cbn.
  - rewrite Z.eqb_refl. reflexivity.
  - intros H. destruct (Z.eqb_spec x k); [tauto|].
    rewrite IH by tauto. reflexivity.
Qed.

Lemma goodEntry_counted (k : Z) (existing : Bucket.t) :
  goodEntry (k, existing) ->
  goodEntry (k, Bucket.mk (Bucket.count existing + 1) (Bucket.r existing)
                   (Bucket.g existing) (Bucket.b existing)).
Proof.
  destruct existing as [c0 r0 g0 b0]. unfold goodEntry, rgbOf.
  cbn [fst snd Bucket.r Bucket.g Bucket.b]. exact (fun H => H).
Qed.

Lemma tracks_countIn (t : list Z) (m : ColorCounts) (fresh : Bucket.t) :
  goodEntry (keyOf (rgbOf fresh), fresh) ->
  tracks t m -> tracks (t ++ [keyOf (rgbOf fresh)]) (countIn fresh m).
Proof.
  intros Hfresh (Hkeys & Hord & Hgood). unfold countIn. cbv zeta.
  generalize dependent (keyOf (rgbOf fresh)). intros k Hfresh.
  destruct (Map_get k m) as [existing|] eqn:G.
  - assert (Hin : In k (map fst m)).
    { apply Map_get_Some in G. apply (in_map fst) in G.
      cbn [fst] in G. exact G. }
    split; [|split].
    + rewrite Map_set_present by assumption. intros k0.
      rewrite in_app_iff, Hkeys. cbn. split; [tauto|].
      intros [H | [<- | []]]; [assumption | apply Hkeys, Hin].
    + rewrite Map_set_present by assumption.
      eapply StronglySorted_weaken; [|exact Hord].
      intros k1 k2 Hk1 Hk2 H. cbn beta in *.
      rewrite !firstIndex_app by (apply Hkeys; assumption). exact H.
    + apply Map_set_Forall; [assumption|].
      apply Map_get_Some in G. rewrite Forall_forall in Hgood.
      apply goodEntry_counted, Hgood, G.
  - apply Map_get_None in G.
    assert (Hnew : ~ In k t) by (rewrite <- Hkeys; assumption).
    rewrite Map_set_absent by assumption. split; [|split].
    + rewrite map_app. cbn. intros k0. rewrite !in_app_iff, Hkeys. reflexivity.
    + rewrite map_app. cbn. apply StronglySorted_app. split; [|split].
      * eapply StronglySorted_weaken; [|exact Hord].
        intros k1 k2 Hk1 Hk2 H. cbn beta in *.
        rewrite !firstIndex_app by (apply Hkeys; assumption). exact H.
      * repeat constructor.
      * intros k1 k2 Hk1 [<- | []].
        rewrite firstIndex_app by (apply Hkeys; assumption).
        rewrite firstIndex_new by assumption.
        apply firstIndex_lt, Hkeys, Hk1.
    + apply Forall_app. split; [assumption|].
      constructor; [exact Hfresh | constructor].
Qed.

Lemma sample_countIn (data : list byte) (m : ColorCounts) (i : nat) :
  sample data m i =
  match pixelBucket data i with
  | Some fresh => countIn fresh m
  | None => m
  end.
Proof.
  unfold sample, pixelBucket.
  destruct (element data (i + 3) <? 200)%float; [reflexivity|].
  unfold countIn, keyOf, rgbOf.
  cbn [r g b Bucket.r Bucket.g Bucket.b]. cbv zeta. reflexivity.
Qed.

Lemma pixelBucket_good (data : list byte) (i : nat) (fresh : Bucket.t) :
  pixelBucket data i = Some fresh -> goodEntry (keyOf (rgbOf fresh), fresh).
Proof.
  unfold pixelBucket.
  destruct (element data (i + 3) <? 200)%float; [discriminate|].
  intros [= <-]. unfold goodEntry.
  cbn [fst snd Bucket.r Bucket.g Bucket.b].
  repeat split; apply quantized_element.
Qed.

Lemma tracks_fold (data : list byte) (is_ : list nat) :
  forall t m, tracks t m ->
  tracks (t ++ keysAt data is_) (fold_left (sample data) is_ m).
Proof.
  induction is_ as [|i is_ IH]; intros t m H; cbn.
  - rewrite app_nil_r. exact H.
  - rewrite sample_countIn. unfold keysAt in *. cbn [flat_map].
    destruct (pixelBucket data i) as [fresh|] eqn:P.
    + cbn [app]. change (t ++ ?k :: ?l) with (t ++ [k] ++ l).
      rewrite app_assoc. apply IH, tracks_countIn; [|assumption].
      eapply pixelBucket_good, P.
    + cbn [app]. apply IH, H.
Qed.

Lemma countColors_tracks (data : list byte) (sampleRate : nat) (m : ColorCounts) :
  countColors data sampleRate = Some m -> tracks (encounters data sampleRate) m.
Proof.
  unfold countColors, encounters, visited.
  destruct (indices _ _ _ _) as [is_|]; [|discriminate].
  cbn. intros [= <-].
  apply (tracks_fold data is_ [] []).
  split; [|split]; [reflexivity | constructor | constructor].
Qed.

(** ** The distinctness filter *)

Lemma distinctLoop_In (maxColors : nat) (sortedColors : list Bucket.t) :
  forall distinctColors x,
    In x (distinctLoop maxColors sortedColors distinctColors) ->
    In x distinctColors \/ In x sortedColors.
Proof.
  induction sortedColors as [|color rest IH]; intros acc x; cbn [distinctLoop].
  - auto.
  - destruct (maxColors <=? List.length acc)%nat; [auto|].
    intros H. apply IH in H.
    destruct (forallb _ acc); [rewrite in_app_iff in H|]; cbn in *; tauto.
Qed.

Lemma distinctLoop_sorted (R : Bucket.t -> Bucket.t -> Prop) (maxColors : nat)
    (sortedColors : list Bucket.t) :
  forall distinctColors,
    StronglySorted R (distinctColors ++ sortedColors) ->
    StronglySorted R (distinctLoop maxColors sortedColors distinctColors).
Proof.
  induction sortedColors as [|color rest IH]; intros acc H; cbn [distinctLoop].
  - rewrite app_nil_r in H. exact H.
  - destruct (maxColors <=? List.length acc)%nat.
    + apply StronglySorted_app in H. tauto.
    + apply IH. destruct (forallb _ acc).
      * rewrite <- app_assoc. exact H.
      * apply StronglySorted_app in H. destruct H as (H1 & H2 & H12).
        apply StronglySorted_app. inversion H2; subst.
        split; [assumption|]. split; [assumption|].
        intros x y Hx Hy. apply H12; [assumption | right; assumption].
Qed.

Lemma distinctLoop_far (maxColors : nat) (sortedColors : list Bucket.t) :
  forall distinctColors,
    StronglySorted far distinctColors ->
    StronglySorted far (distinctLoop maxColors sortedColors distinctColors).
Proof.
  induction sortedColors as [|color rest IH]; intros acc H; cbn [distinctLoop].
  - exact H.
  - destruct (maxColors <=? List.length acc)%nat; [exact H|].
    apply IH. destruct (forallb _ acc) eqn:F; [|exact H].
    apply StronglySorted_app. split; [exact H|]. split; [repeat constructor|].
    intros x y Hx [<- | []].
    rewrite forallb_forall in F. specialize (F x Hx).
    apply Z.ltb_lt in F. exact F.
Qed.

Lemma colorDistanceSq_sym (c1 c2 : RGB) :
  colorDistanceSq c1 c2 = colorDistanceSq c2 c1.
Proof. unfold colorDistanceSq. ring. Qed.

(** ** The palette *)

Lemma extractColors_Resolved (context : bool) (image : HTMLImageElement)
    (sampleRate maxColors : nat) (res : PaletteAnalysis) :
  extractColors context image sampleRate maxColors = Resolved res ->
  exists colorCounts,
    countColors (raster image) sampleRate = Some colorCounts
    /\ res = analyse colorCounts maxColors.
Proof.
  rewrite extractColors_steps.
  destruct (negb context); [discriminate|].
  destruct (_ || _); [discriminate|].
  destruct (countColors _ _) as [colorCounts|]; [|discriminate].
  intros [= <-]. eauto.
Qed.

Lemma extractColors_settles (context : bool) (image : HTMLImageElement)
    (sampleRate maxColors : nat) :
  (1 <= sampleRate)%nat ->
  extractColors context image sampleRate maxColors <> Pending.
Proof.
  intros H. rewrite extractColors_steps.
  destruct (negb context); [discriminate|].
  destruct (_ || _); [discriminate|].
  destruct (countColors_total (raster image) sampleRate H) as [colorCounts ->].
  discriminate.
Qed.

Lemma all_analyse (colorCounts : ColorCounts) (maxColors : nat) :
  all (analyse colorCounts maxColors) = map colorData (survivors colorCounts maxColors).
Proof. reflexivity. Qed.

Lemma nth_error_map_inv {A B : Type} (f : A -> B) (l : list A) (i : nat) (y : B) :
  nth_error (map f l) i = Some y -> exists x, nth_error l i = Some x /\ y = f x.
Proof.
  revert i. induction l as [|a l IH]; intros [|i]; cbn; try discriminate.
  - intros [= <-]. eauto.
  - apply IH.
Qed.

(** C5: when the promise resolves (it settles for every stride of at least
    1), any two entries of [all] at different positions are at a squared
    RGB distance above 2500. *)
Theorem distinct_entries (context : bool) (image : HTMLImageElement)
    (sampleRate maxColors : nat) :
  (1 <= sampleRate)%nat ->
  extractColors context image sampleRate maxColors <> Pending
  /\ forall res,
       extractColors context image sampleRate maxColors = Resolved res ->
       forall i j c1 c2,
         i <> j -> nth_error (all res) i = Some c1 -> nth_error (all res) j = Some c2 ->
         2500 < colorDistanceSq (rgb c1) (rgb c2).
Proof.
  intros Hrate. split; [apply extractColors_settles, Hrate|].
  intros res Hres i j c1 c2 Hij H1 H2.
  apply extractColors_Resolved in Hres. destruct Hres as (m & _ & ->).
  rewrite all_analyse in H1, H2.
  apply nth_error_map_inv in H1, H2.
  destruct H1 as (x1 & H1 & ->), H2 as (x2 & H2 & ->).
  assert (Hfar : StronglySorted far (survivors m maxColors))
    by (apply distinctLoop_far; constructor).
  change (rgb (colorData ?x)) with (rgbOf x).
  destruct (Nat.lt_ge_cases i j) as [Hlt | Hge].
  - exact (StronglySorted_nth far _ Hfar i j x1 x2 Hlt H1 H2).
  - rewrite colorDistanceSq_sym.
    exact (StronglySorted_nth far _ Hfar j i x2 x1 ltac:(lia) H2 H1).
Qed.

Lemma distinct_entries_witness :
  (1 <= 1)%nat /\ 2500 < colorDistanceSq (mkRGB 252 0 0) (mkRGB 0 0 252).
Proof.
  split; [constructor|].
  destruct (distinct_entries true scenarioImage 1 8 (le_n 1)) as [_ H].
  exact (H scenarioPalette scenario_resolved 0%nat 1%nat _ _
           ltac:(discriminate) eq_refl eq_refl).
Defined.

Lemma isLevel_quantizedChannel (z : Z) : isLevel z = true -> quantizedChannel z.
Proof.
  unfold isLevel, quantizedChannel. intros H.
  apply andb_prop in H. destruct H as [H H3].
  apply andb_prop in H. destruct H as [H1 H2].
  apply Z.leb_le in H1, H2. apply Z.eqb_eq in H3. auto.
Qed.

Lemma survivors_In (m : ColorCounts) (maxColors : nat) (x : Bucket.t) :
  In x (survivors m maxColors) -> exists k, In (k, x) m.
Proof.
  intros H. apply distinctLoop_In in H. destruct H as [[] | H].
  unfold ranking in H. apply sort_In in H.
  apply in_map_iff in H. destruct H as ([k v] & <- & H).
  exists k. exact H.
Qed.

Lemma ranking_sorted (met : list Z) (m : ColorCounts) (maxColors : nat) :
  tracks met m ->
  StronglySorted (ranked Bucket.count (metBefore met)) (survivors m maxColors).
Proof.
  intros (Hkeys & Hord & Hgood).
  apply distinctLoop_sorted. cbn [app]. unfold ranking.
  apply (sort_stable Bucket.count (metBefore met)).
  apply (proj1 (StronglySorted_map snd (metBefore met) m)).
  apply (proj2 (StronglySorted_map fst _ m)) in Hord.
  eapply StronglySorted_weaken; [|exact Hord].
  intros e1 e2 H1 H2 H. cbn beta in *.
  rewrite Forall_forall in Hgood.
  destruct (Hgood e1 H1) as (K1 & _), (Hgood e2 H2) as (K2 & _).
  unfold metBefore. rewrite K1, K2. exact H.
Qed.

(** C7: when the promise resolves, [all] is in descending order of
    population, and of two entries with the same population the one whose
    key the sampling loop met first comes first; every entry's key was met. *)
Theorem dominance_order (context : bool) (image : HTMLImageElement)
    (sampleRate maxColors : nat) :
  (1 <= sampleRate)%nat ->
  extractColors context image sampleRate maxColors <> Pending
  /\ forall res,
       extractColors context image sampleRate maxColors = Resolved res ->
       let met := encounters (raster image) sampleRate in
       (forall c, In c (all res) -> In (keyOf (rgb c)) met)
       /\ forall i j c1 c2,
            (i < j)%nat ->
            nth_error (all res) i = Some c1 -> nth_error (all res) j = Some c2 ->
            population c2 <= population c1
            /\ (population c1 = population c2 ->
                (firstIndex (keyOf (rgb c1)) met < firstIndex (keyOf (rgb c2)) met)%nat).
Proof.
  intros Hrate. split; [apply extractColors_settles, Hrate|].
  intros res Hres met.
  apply extractColors_Resolved in Hres. destruct Hres as (m & Hm & ->).
  apply countColors_tracks in Hm. fold met in Hm.
  rewrite all_analyse. split.
  - intros c Hc. apply in_map_iff in Hc. destruct Hc as (x & <- & Hx).
    apply survivors_In in Hx. destruct Hx as (k & Hk).
    destruct Hm as (Hkeys & _ & Hgood). rewrite Forall_forall in Hgood.
    destruct (Hgood _ Hk) as (K & _). cbn [fst snd] in K.
    change (rgb (colorData x)) with (rgbOf x). rewrite K.
    apply Hkeys. apply (in_map fst) in Hk. exact Hk.
  - intros i j c1 c2 Hij H1 H2.
    apply nth_error_map_inv in H1, H2.
    destruct H1 as (x1 & H1 & ->), H2 as (x2 & H2 & ->).
    pose proof (StronglySorted_nth _ _ (ranking_sorted met m maxColors Hm)
                  i j x1 x2 Hij H1 H2) as H.
    change (rgb (colorData ?x)) with (rgbOf x).
    change (population (colorData ?x)) with (Bucket.count x).
    unfold ranked, metBefore in H. split; [lia|].
    intros Heq. destruct H as [H | [_ H]]; [lia | exact H].
Qed.

Lemma dominance_order_witness :
  (1 <= 1)%nat
  /\ (firstIndex (keyOf (mkRGB 252 0 0)) (encounters (raster scenarioImage) 1)
      < firstIndex (keyOf (mkRGB 0 0 252)) (encounters (raster scenarioImage) 1))%nat.
Proof.
  split; [constructor|].
  destruct (dominance_order true scenarioImage 1 8 (le_n 1)) as [_ H].
  destruct (H scenarioPalette scenario_resolved) as [_ Hord].
  exact (proj2 (Hord 0%nat 1%nat _ _ (le_n 1) eq_refl eq_refl) eq_refl).
Defined.

(** C8: when the promise resolves, every entry of [all] is in exactly one of
    [warm], [cool] and [neutral], which hold entries of [all] only, those of
    their category; and [accents] holds the entries of [all] with saturation
    >= 0.45 and lightness between 0.2 and 0.85, whatever their category. *)
Theorem category_views (context : bool) (image : HTMLImageElement)
    (sampleRate maxColors : nat) :
  (1 <= sampleRate)%nat ->
  extractColors context image sampleRate maxColors <> Pending
  /\ forall res,
       extractColors context image sampleRate maxColors = Resolved res ->
       (forall c, In c (all res) ->
          (In c (warm res) /\ ~ In c (cool res) /\ ~ In c (neutral res))
          \/ (~ In c (warm res) /\ In c (cool res) /\ ~ In c (neutral res))
          \/ (~ In c (warm res) /\ ~ In c (cool res) /\ In c (neutral res)))
       /\ (forall c, In c (warm res) \/ In c (cool res) \/ In c (neutral res) ->
             In c (all res))
       /\ (forall c, In c (warm res) <-> In c (all res) /\ category c = Warm)
       /\ (forall c, In c (cool res) <-> In c (all res) /\ category c = Cool)
       /\ (forall c, In c (neutral res) <-> In c (all res) /\ category c = Neutral)
       /\ accents res = filter (fun c => isAccentColor (hsl c)) (all res)
       /\ (forall c, In c (accents res) <-> In c (all res) /\ accentRule (hsl c)).
Proof.
  intros Hrate. split; [apply extractColors_settles, Hrate|].
  intros res Hres.
  apply extractColors_Resolved in Hres. destruct Hres as (m & _ & ->).
  unfold analyse. cbn [all warm cool neutral accents].
  set (entries := map colorData _).
  assert (Hw : forall c, In c (filter isWarm entries) <-> In c entries /\ category c = Warm).
  { intros c. rewrite filter_In. unfold isWarm.
    destruct (category c); intuition discriminate. }
  assert (Hc : forall c, In c (filter isCool entries) <-> In c entries /\ category c = Cool).
  { intros c. rewrite filter_In. unfold isCool.
    destruct (category c); intuition discriminate. }
  assert (Hn : forall c, In c (filter isNeutral entries) <-> In c entries /\ category c = Neutral).
  { intros c. rewrite filter_In. unfold isNeutral.
    destruct (category c); intuition discriminate. }
  split; [|split; [|split; [|split; [|split; [|split]]]]]; try assumption.
  - intros c Hin. rewrite Hw, Hc, Hn.
    destruct (category c); [left | right; left | right; right];
      repeat split; try assumption; intros [_ H]; discriminate H.
  - intros c. rewrite Hw, Hc, Hn. tauto.
  - reflexivity.
  - intros c. rewrite filter_In. unfold isAccentColor, accentRule, JS.le.
    rewrite !andb_true_iff. tauto.
Qed.

Lemma category_views_witness :
  (1 <= 1)%nat
  /\ accents scenarioPalette
     = filter (fun c => isAccentColor (hsl c)) (all scenarioPalette).
Proof.
  split; [constructor|].
  destruct (category_views true scenarioImage 1 8 (le_n 1)) as [_ H].
  exact (proj1 (proj2 (proj2 (proj2 (proj2 (proj2
           (H scenarioPalette scenario_resolved))))))).
Defined.

(** C10: when the promise resolves, every entry of the five sequences has
    channels that are multiples of 12 and at most 252, the hex string and
    the HSL value of that quantized colour, and a hex string other than
    #ffffff. *)
Theorem quantized_entries (context : bool) (image : HTMLImageElement)
    (sampleRate maxColors : nat) :
  (1 <= sampleRate)%nat ->
  extractColors context image sampleRate maxColors <> Pending
  /\ forall res,
       extractColors context image sampleRate maxColors = Resolved res ->
       forall c,
         In c (all res ++ warm res ++ cool res ++ neutral res ++ accents res) ->
         quantizedChannel (r (rgb c)) /\ quantizedChannel (g (rgb c))
         /\ quantizedChannel (b (rgb c))
         /\ hex c = rgbToHex (rgb c) /\ hsl c = rgbToHsl (rgb c)
         /\ hex c <> "#ffffff"%string.
Proof.
  intros Hrate. split; [apply extractColors_settles, Hrate|].
  intros res Hres c Hc.
  apply extractColors_Resolved in Hres. destruct Hres as (m & Hm & ->).
  apply countColors_tracks in Hm. destruct Hm as (_ & _ & Hgood).
  assert (Hall : In c (all (analyse m maxColors))).
  { unfold analyse in *. cbn [all warm cool neutral accents] in *.
    rewrite !in_app_iff, !filter_In in Hc. tauto. }
  clear Hc. rewrite all_analyse in Hall.
  apply in_map_iff in Hall. destruct Hall as (x & <- & Hx).
  apply survivors_In in Hx. destruct Hx as (k & Hk).
  rewrite Forall_forall in Hgood.
  destruct (Hgood _ Hk) as (_ & Lr & Lg & Lb). cbn [snd] in *.
  apply isLevel_quantizedChannel in Lr, Lg, Lb.
  change (rgb (colorData x)) with (rgbOf x).
  change (hex (colorData x)) with (rgbToHex (rgbOf x)).
  change (hsl (colorData x)) with (rgbToHsl (rgbOf x)).
  cbn [rgbOf r g b].
  repeat (split; [assumption || reflexivity|]).
  intros Hhex.
  assert (Hv : validRGB (rgbOf x)).
  { unfold validRGB, quantizedChannel in *. cbn [rgbOf r g b]. lia. }
  apply hexToRgb_rgbToHex in Hv. rewrite Hhex in Hv.
  change (hexToRgb "#ffffff") with (Some (mkRGB 255 255 255)) in Hv.
  injection Hv as Hr _ _. unfold quantizedChannel in Lr. lia.
Qed.

Lemma quantized_entries_witness :
  (1 <= 1)%nat
  /\ forall c,
       In c (all scenarioPalette ++ warm scenarioPalette ++ cool scenarioPalette
             ++ neutral scenarioPalette ++ accents scenarioPalette) ->
       quantizedChannel (r (rgb c)) /\ quantizedChannel (g (rgb c))
       /\ quantizedChannel (b (rgb c))
       /\ hex c = rgbToHex (rgb c) /\ hsl c = rgbToHsl (rgb c)
       /\ hex c <> "#ffffff"%string.
Proof.
  split; [constructor|].
  destruct (quantized_entries true scenarioImage 1 8 (le_n 1)) as [_ H].
  exact (H scenarioPalette scenario_resolved).
Defined.

(** ** Counting, ranking and covering *)

(** *** Keys *)

Lemma lor_low (a b n : Z) :
  0 <= n -> 0 <= b < 2 ^ n -> Z.lor (a * 2 ^ n) b = a * 2 ^ n + b.
Proof.
  intros Hn Hb.
  assert (Hland : Z.land (a * 2 ^ n) b = 0).
  { apply Z.bits_inj'. intros i Hi. rewrite Z.land_spec, Z.bits_0.
    destruct (Z.lt_ge_cases i n) as [Hlt | Hge].
    - rewrite Z.mul_pow2_bits_low by lia. reflexivity.
    - destruct (Z.eq_dec b 0) as [-> | Hb0].
      + rewrite Z.bits_0. apply andb_false_r.
      + rewrite (Z.bits_above_log2 b i); [apply andb_false_r | lia |].
        assert (2 ^ n <= 2 ^ i) by (apply Z.pow_le_mono_r; lia).
        apply Z.log2_lt_pow2; lia. }
  rewrite <- Z.lxor_lor by assumption.
  symmetry. apply Z.add_nocarry_lxor. assumption.
Qed.

Lemma wrap32_small (z : Z) : - 2 ^ 31 <= z < 2 ^ 31 -> JS.wrap32 z = z.
Proof.
  intros H. unfold JS.wrap32.
  rewrite Z.mod_small; [lia|].
  change (2 ^ 32) with (2 * 2 ^ 31). lia.
Qed.

(** The key of a colour of 8-bit channels is [r * 65536 + g * 256 + b]. *)
Lemma keyOf_value (c : RGB) :
  validRGB c -> keyOf c = r c * 65536 + g c * 256 + b c.
Proof.
  intros (Hr & Hg & Hb). unfold keyOf, JS.bor.
  rewrite (shl_byte (r c) 16), (shl_byte (g c) 8) by lia.
  assert (P31 : 2 ^ 31 = 2147483648) by reflexivity.
  assert (P16 : 2 ^ 16 = 65536) by reflexivity.
  assert (P8 : 2 ^ 8 = 256) by reflexivity.
  rewrite (wrap32_small (r c * 2 ^ 16)), (wrap32_small (g c * 2 ^ 8)),
    (wrap32_small (b c)) by lia.
  rewrite (lor_low (r c) (g c * 2 ^ 8) 16) by lia.
  rewrite wrap32_small by lia.
  replace (r c * 2 ^ 16 + g c * 2 ^ 8) with ((r c * 256 + g c) * 2 ^ 8) by lia.
  rewrite lor_low by lia. lia.
Qed.

Lemma keyOf_inj (c1 c2 : RGB) :
  validRGB c1 -> validRGB c2 -> keyOf c1 = keyOf c2 -> c1 = c2.
Proof.
  intros H1 H2 E. rewrite !keyOf_value in E by assumption.
  destruct H1 as (? & ? & ?), H2 as (? & ? & ?).
  destruct c1 as [r1 g1 b1], c2 as [r2 g2 b2]. cbn [r g b] in *.
  assert (r1 = r2) by lia. assert (g1 = g2) by lia. assert (b1 = b2) by lia.
  congruence.
Qed.

Lemma levels_valid (x : Bucket.t) :
  isLevel (Bucket.r x) = true -> isLevel (Bucket.g x) = true ->
  isLevel (Bucket.b x) = true -> validRGB (rgbOf x).
Proof.
  intros Hr Hg Hb. apply isLevel_quantizedChannel in Hr, Hg, Hb.
  unfold validRGB, quantizedChannel in *. cbn [rgbOf r g b]. lia.
Qed.

Lemma goodEntry_valid (e : Z * Bucket.t) : goodEntry e -> validRGB (rgbOf (snd e)).
Proof. intros (_ & Hr & Hg & Hb). apply levels_valid; assumption. Qed.

(** *** Tallies *)

Lemma tracks_NoDup (t : list Z) (m : ColorCounts) : tracks t m -> NoDup (map fst m).
Proof.
  intros (_ & Hord & _). induction Hord as [|k l Hs IH Hf]; constructor.
  - intros Hin. rewrite Forall_forall in Hf. specialize (Hf k Hin). lia.
  - exact IH.
Qed.

Lemma Map_set_update (P Q : Z * Bucket.t -> Prop) (k : Z) (v : Bucket.t)
    (m : ColorCounts) :
  NoDup (map fst m) -> Forall P m ->
  (forall e, In e m -> fst e <> k -> P e -> Q e) -> Q (k, v) ->
  Forall Q (Map_set k v m).
Proof.
  intros Hnd Hm Hother Hv. induction m as [|[k0 v0] m IH]; cbn.
  - repeat constructor. exact Hv.
  - cbn in Hnd. inversion Hnd as [|? ? Hnotin Hnd']; subst.
    inversion Hm as [|? ? H0 Hm']; subst.
    destruct (Z.eqb_spec k0 k) as [-> | Hne].
    + constructor; [exact Hv|].
      rewrite Forall_forall in *. intros e He.
      apply Hother; [right; exact He | | auto].
      intros Heq. apply Hnotin. rewrite <- Heq. apply in_map, He.
    + constructor.
      * apply Hother; [left; reflexivity | exact Hne | exact H0].
      * apply IH; [assumption | assumption |].
        intros e He. apply Hother. right. exact He.
Qed.

Lemma timesMet_app (t : list Z) (k k' : Z) :
  timesMet (t ++ [k]) k' = timesMet t k' + (if Z.eq_dec k k' then 1 else 0).
Proof.
  unfold timesMet. rewrite count_occ_app. cbn [count_occ].
  destruct (Z.eq_dec k k'); lia.
Qed.

Lemma tallies_countIn (t : list Z) (m : ColorCounts) (fresh : Bucket.t) :
  Bucket.count fresh = 1 ->
  tracks t m -> tallies t m ->
  tallies (t ++ [keyOf (rgbOf fresh)]) (countIn fresh m).
Proof.
  intros Hone Htr Htal. pose proof (tracks_NoDup t m Htr) as Hnd.
  destruct Htr as (Hkeys & _ & _). unfold countIn. cbv zeta.
  generalize dependent (keyOf (rgbOf fresh)). intros k.
  destruct (Map_get k m) as [existing|] eqn:G.
  - apply (Map_set_update _ _ k _ m Hnd Htal).
    + intros e He Hne H. cbn beta in *. rewrite timesMet_app, H.
      destruct (Z.eq_dec k (fst e)); [congruence | lia].
    + cbn [fst snd Bucket.count]. rewrite timesMet_app.
      apply Map_get_Some in G. unfold tallies in Htal.
      rewrite Forall_forall in Htal. specialize (Htal _ G). cbn [fst snd] in Htal.
      destruct (Z.eq_dec k k); [lia | congruence].
  - apply Map_get_None in G. rewrite Map_set_absent by assumption.
    apply Forall_app. split.
    + unfold tallies in Htal. rewrite Forall_forall in *. intros e He.
      rewrite timesMet_app, (Htal e He).
      destruct (Z.eq_dec k (fst e)) as [-> |]; [|lia].
      exfalso. apply G, in_map, He.
    + repeat constructor. cbn [fst snd]. rewrite timesMet_app, Hone.
      assert (Hnot : ~ In k t) by (rewrite <- Hkeys; exact G).
      unfold timesMet. rewrite (proj1 (count_occ_not_In Z.eq_dec t k) Hnot).
      destruct (Z.eq_dec k k); [reflexivity | congruence].
Qed.

Lemma pixelBucket_one (data : list byte) (i : nat) (fresh : Bucket.t) :
  pixelBucket data i = Some fresh -> Bucket.count fresh = 1.
Proof.
  unfold pixelBucket. destruct (_ <? _)%float; [discriminate|].
  intros [= <-]. reflexivity.
Qed.

Lemma tallies_fold (data : list byte) (is_ : list nat) :
  forall t m, tracks t m -> tallies t m ->
  tallies (t ++ keysAt data is_) (fold_left (sample data) is_ m).
Proof.
  induction is_ as [|i is_ IH]; intros t m Htr Htal; cbn [fold_left].
  - unfold keysAt. cbn. rewrite app_nil_r. exact Htal.
  - rewrite sample_countIn. unfold keysAt in *. cbn [flat_map].
    destruct (pixelBucket data i) as [fresh|] eqn:P.
    + cbn [app]. change (t ++ ?k :: ?l) with (t ++ [k] ++ l).
      rewrite app_assoc. apply IH.
      * apply tracks_countIn; [eapply pixelBucket_good, P | assumption].
      * apply tallies_countIn; [eapply pixelBucket_one, P | assumption | assumption].
    + cbn [app]. apply IH; assumption.
Qed.

Lemma countColors_tallies (data : list byte) (sampleRate : nat) (m : ColorCounts) :
  countColors data sampleRate = Some m -> tallies (encounters data sampleRate) m.
Proof.
  intros H. pose proof H as H'. revert H.
  unfold countColors, encounters, visited.
  destruct (indices _ _ _ _) as [is_|]; [|discriminate].
  cbn. intros [= <-].
  apply (tallies_fold data is_ [] []); [|constructor].
  split; [|split]; [reflexivity | constructor | constructor].
Qed.

(** *** The filter loop *)

Lemma distinctLoop_length (maxColors : nat) (sortedColors : list Bucket.t) :
  forall distinctColors,
    (List.length distinctColors <= maxColors)%nat ->
    (List.length (distinctLoop maxColors sortedColors distinctColors) <= maxColors)%nat.
Proof.
  induction sortedColors as [|color rest IH]; intros acc H; cbn [distinctLoop].
  - exact H.
  - destruct (Nat.leb_spec maxColors (List.length acc)); [exact H|].
    apply IH. destruct (forallb _ acc); [|exact H].
    rewrite length_app. cbn. lia.
Qed.

Lemma distinctLoop_keeps (maxColors : nat) (sortedColors : list Bucket.t) :
  forall distinctColors,
  exists more, distinctLoop maxColors sortedColors distinctColors = distinctColors ++ more.
Proof.
  induction sortedColors as [|color rest IH]; intros acc; cbn [distinctLoop].
  - exists []. rewrite app_nil_r. reflexivity.
  - destruct (maxColors <=? List.length acc)%nat.
    + exists []. rewrite app_nil_r. reflexivity.
    + destruct (forallb _ acc).
      * destruct (IH (acc ++ [color])) as [more ->].
        exists (color :: more). rewrite <- app_assoc. reflexivity.
      * apply IH.
Qed.

(** Unless the loop stops on a full palette, each bucket it went through is
    kept or is near a kept one. *)
Lemma distinctLoop_covers (maxColors : nat) (sortedColors : list Bucket.t) :
  forall distinctColors,
    (List.length (distinctLoop maxColors sortedColors distinctColors) < maxColors)%nat ->
    forall x, In x sortedColors ->
      exists y, In y (distinctLoop maxColors sortedColors distinctColors)
                /\ colorDistanceSq (rgbOf y) (rgbOf x) <= minDistanceSq.
Proof.
  induction sortedColors as [|color rest IH]; intros acc Hlen x Hx;
    cbn [distinctLoop] in *; [destruct Hx|].
  destruct (Nat.leb_spec maxColors (List.length acc)); [lia|].
  destruct Hx as [<- | Hx]; [|apply IH; assumption].
  destruct (forallb _ acc) eqn:F.
  - destruct (distinctLoop_keeps maxColors rest (acc ++ [color])) as [more ->].
    exists color. split; [rewrite !in_app_iff; cbn; tauto|].
    unfold colorDistanceSq, minDistanceSq. nia.
  - assert (Hex : exists y, In y acc
                   /\ (minDistanceSq <? colorDistanceSq (rgbOf y) (rgbOf color)) = false).
    { clear - F. induction acc as [|a acc IHa]; cbn [forallb] in F; [discriminate|].
      apply andb_false_iff in F. destruct F as [Fa | F].
      - exists a. split; [left; reflexivity | assumption].
      - destruct (IHa F) as (y & Hy & Hd). exists y. split; [right|]; assumption. }
    destruct Hex as (y & Hy & Hd). apply Z.ltb_ge in Hd.
    destruct (distinctLoop_keeps maxColors rest acc) as [more ->].
    exists y. split; [apply in_or_app; left; exact Hy | exact Hd].
Qed.

(** *** The first index loop *)

Lemma indices_stuck (fuel length i : nat) :
  (i < length)%nat -> indices fuel length 0 i = None.
Proof.
  intros H. induction fuel as [|fuel IH]; cbn [indices];
    destruct (Nat.ltb_spec i length); try lia; [reflexivity|].
  rewrite Nat.add_0_r, IH. reflexivity.
Qed.

(** *** Properties of the result *)

Lemma all_entry (m : ColorCounts) (maxColors : nat) (c : ColorData) :
  In c (all (analyse m maxColors)) ->
  exists k x, c = colorData x /\ In x (survivors m maxColors) /\ In (k, x) m.
Proof.
  rewrite all_analyse. intros H.
  apply in_map_iff in H. destruct H as (x & <- & Hx).
  destruct (survivors_In m maxColors x Hx) as (k & Hk). eauto.
Qed.

Lemma filter_length_le {A : Type} (f : A -> bool) (l : list A) :
  (List.length (filter f l) <= List.length l)%nat.
Proof.
  induction l as [|a l IH]; cbn; [lia|]. destruct (f a); cbn; lia.
Qed.

Lemma category_lengths (l : list ColorData) :
  (List.length (filter isWarm l) + List.length (filter isCool l)
   + List.length (filter isNeutral l) = List.length l)%nat.
Proof.
  induction l as [|c l IH]; cbn [filter List.length]; [reflexivity|].
  unfold isWarm at 1, isCool at 1, isNeutral at 1.
  destruct (category c); cbn [List.length]; lia.
Qed.

(** X1: the palette holds at most [maxColors] entries; the three category
    views share them out, and the accents are no more. *)
Theorem palette_size (context : bool) (image : HTMLImageElement)
    (sampleRate maxColors : nat) (res : PaletteAnalysis) :
  extractColors context image sampleRate maxColors = Resolved res ->
  (List.length (all res) <= maxColors)%nat
  /\ (List.length (warm res) + List.length (cool res) + List.length (neutral res)
      = List.length (all res))%nat
  /\ (List.length (accents res) <= List.length (all res))%nat.
Proof.
  intros Hres. apply extractColors_Resolved in Hres. destruct Hres as (m & _ & ->).
  split; [|split].
  - rewrite all_analyse, length_map. apply distinctLoop_length. cbn. lia.
  - apply category_lengths.
  - apply filter_length_le.
Qed.

Lemma palette_size_witness :
  extractColors true scenarioImage 1 8 = Resolved scenarioPalette
  /\ (List.length (all scenarioPalette) <= 8)%nat.
Proof.
  split; [exact scenario_resolved|].
  exact (proj1 (palette_size true scenarioImage 1 8 scenarioPalette scenario_resolved)).
Defined.

Lemma timesMet_pos (t : list Z) (k : Z) : In k t -> 1 <= timesMet t k.
Proof.
  intros H. unfold timesMet.
  apply (count_occ_In Z.eq_dec) in H. lia.
Qed.

Lemma timesMet_absent (t : list Z) (k : Z) : ~ In k t -> timesMet t k = 0.
Proof.
  intros H. unfold timesMet.
  rewrite (proj1 (count_occ_not_In Z.eq_dec t k) H). reflexivity.
Qed.

Lemma entry_population (met : list Z) (m : ColorCounts) (k : Z) (x : Bucket.t) :
  tracks met m -> tallies met m -> In (k, x) m ->
  keyOf (rgbOf x) = k /\ Bucket.count x = timesMet met k /\ In k met.
Proof.
  intros (Hkeys & _ & Hgood) Htal Hk.
  unfold tallies in Htal. rewrite Forall_forall in Hgood, Htal.
  destruct (Hgood _ Hk) as (K & _). specialize (Htal _ Hk).
  cbn [fst snd] in *. repeat split; try assumption.
  apply Hkeys. apply (in_map fst) in Hk. exact Hk.
Qed.

(** X2: the population of an entry is the number of sampled pixels of alpha
    200 or more whose quantized colour has the entry's key; it is at least
    1. *)
Theorem population_counts (context : bool) (image : HTMLImageElement)
    (sampleRate maxColors : nat) (res : PaletteAnalysis) :
  extractColors context image sampleRate maxColors = Resolved res ->
  forall c, In c (all res) ->
    population c = timesMet (encounters (raster image) sampleRate) (keyOf (rgb c))
    /\ 1 <= population c.
Proof.
  intros Hres c Hc.
  apply extractColors_Resolved in Hres. destruct Hres as (m & Hm & ->).
  pose proof (countColors_tracks _ _ _ Hm) as Htr.
  pose proof (countColors_tallies _ _ _ Hm) as Htal.
  apply all_entry in Hc. destruct Hc as (k & x & -> & _ & Hk).
  destruct (entry_population _ _ _ _ Htr Htal Hk) as (K & Hcount & Hin).
  change (rgb (colorData x)) with (rgbOf x).
  change (population (colorData x)) with (Bucket.count x).
  rewrite K, Hcount. split; [reflexivity | apply timesMet_pos, Hin].
Qed.

Lemma population_counts_witness :
  extractColors true scenarioImage 1 8 = Resolved scenarioPalette
  /\ forall c, In c (all scenarioPalette) ->
       population c = timesMet (encounters (raster scenarioImage) 1) (keyOf (rgb c))
       /\ 1 <= population c.
Proof.
  split; [exact scenario_resolved|].
  exact (population_counts true scenarioImage 1 8 scenarioPalette scenario_resolved).
Defined.

Lemma StronglySorted_any {A : Type} (l : list A) :
  StronglySorted (fun _ _ => True) l.
Proof.
  induction l; constructor; [assumption|]. rewrite Forall_forall. auto.
Qed.

Lemma ranking_head (m : ColorCounts) (x : Bucket.t) (rest : list Bucket.t) :
  ranking m = x :: rest ->
  forall y, In y (map snd m) -> Bucket.count y <= Bucket.count x.
Proof.
  intros E y Hy.
  pose proof (sort_stable Bucket.count (fun _ _ => True) (map snd m)
                (StronglySorted_any _)) as Hs.
  fold (ranking m) in Hs. rewrite E in Hs.
  apply (sort_In Bucket.count) in Hy. fold (ranking m) in Hy. rewrite E in Hy.
  inversion Hs as [|? ? _ Hf]; subst. destruct Hy as [<- | Hy]; [lia|].
  rewrite Forall_forall in Hf. specialize (Hf y Hy). unfold ranked in Hf. lia.
Qed.

Lemma survivors_head (m : ColorCounts) (maxColors : nat) (x : Bucket.t)
    (rest : list Bucket.t) :
  (1 <= maxColors)%nat -> ranking m = x :: rest ->
  exists more, survivors m maxColors = x :: more.
Proof.
  intros Hmax E. unfold survivors. rewrite E. cbn [distinctLoop List.length forallb].
  destruct (Nat.leb_spec maxColors 0); [lia|].
  destruct (distinctLoop_keeps maxColors rest ([] ++ [x])) as [more ->].
  exists more. reflexivity.
Qed.

(** X3: when a pixel was counted and [maxColors] is at least 1, [all] starts
    with a bucket that no key was met more often than. *)
Theorem dominant_first (context : bool) (image : HTMLImageElement)
    (sampleRate maxColors : nat) (res : PaletteAnalysis) :
  extractColors context image sampleRate maxColors = Resolved res ->
  (1 <= maxColors)%nat ->
  encounters (raster image) sampleRate <> [] ->
  exists top rest,
    all res = top :: rest
    /\ forall k, timesMet (encounters (raster image) sampleRate) k <= population top.
Proof.
  intros Hres Hmax Hmet.
  apply extractColors_Resolved in Hres. destruct Hres as (m & Hm & ->).
  pose proof (countColors_tracks _ _ _ Hm) as Htr.
  pose proof (countColors_tallies _ _ _ Hm) as Htal.
  set (met := encounters (raster image) sampleRate) in *.
  destruct (ranking m) as [|x rest] eqn:E.
  - exfalso. destruct met as [|k0 met']; [congruence|].
    assert (Hin : In k0 (map fst m)) by (apply (proj1 Htr); left; reflexivity).
    apply in_map_iff in Hin. destruct Hin as ([k v] & _ & Hv).
    assert (Hr : In v (ranking m)).
    { unfold ranking. apply (sort_In Bucket.count). apply (in_map snd) in Hv. exact Hv. }
    rewrite E in Hr. destruct Hr.
  - destruct (survivors_head m maxColors x rest Hmax E) as [more Hs].
    exists (colorData x), (map colorData more). split.
    + rewrite all_analyse, Hs. reflexivity.
    + intros k. change (population (colorData x)) with (Bucket.count x).
      assert (Hx : In x (map snd m)).
      { apply (sort_In Bucket.count). fold (ranking m). rewrite E. left. reflexivity. }
      apply in_map_iff in Hx. destruct Hx as ([kx vx] & Ex & Hx). cbn [snd] in Ex. subst vx.
      destruct (entry_population _ _ _ _ Htr Htal Hx) as (_ & Hcx & Hinx).
      destruct (in_dec Z.eq_dec k met) as [Hin | Hout].
      * apply (proj1 Htr) in Hin.
        apply in_map_iff in Hin. destruct Hin as ([k' v] & Ek & Hv). cbn [fst] in Ek. subst k'.
        destruct (entry_population _ _ _ _ Htr Htal Hv) as (_ & Hcv & _).
        rewrite <- Hcv. eapply ranking_head; [exact E|].
        apply (in_map snd) in Hv. exact Hv.
      * rewrite timesMet_absent by assumption. rewrite Hcx.
        pose proof (timesMet_pos met kx Hinx). lia.
Qed.

Lemma dominant_first_witness :
  extractColors true scenarioImage 1 8 = Resolved scenarioPalette
  /\ (1 <= 8)%nat
  /\ encounters (raster scenarioImage) 1 <> []
  /\ exists top rest,
       all scenarioPalette = top :: rest
       /\ forall k, timesMet (encounters (raster scenarioImage) 1) k <= population top.
Proof.
  assert (Hmet : encounters (raster scenarioImage) 1 <> [])
    by (vm_compute; discriminate).
  assert (Hmax : (1 <= 8)%nat) by (repeat constructor).
  split; [exact scenario_resolved|]. split; [exact Hmax|]. split; [exact Hmet|].
  exact (dominant_first true scenarioImage 1 8 scenarioPalette scenario_resolved
           Hmax Hmet).
Defined.

Lemma keysAt_In (data : list byte) (is_ : list nat) (i : nat) (fresh : Bucket.t) :
  In i is_ -> pixelBucket data i = Some fresh ->
  In (keyOf (rgbOf fresh)) (keysAt data is_).
Proof.
  intros Hi P. unfold keysAt. apply in_flat_map.
  exists i. split; [exact Hi|]. rewrite P. left. reflexivity.
Qed.

Lemma sample_first (data : list byte) (i : nat) (k : Z) (fresh : Bucket.t) :
  sample data [] i = [(k, fresh)] <->
  pixelBucket data i = Some fresh /\ k = keyOf (rgbOf fresh).
Proof.
  rewrite sample_countIn. destruct (pixelBucket data i) as [x|].
  - unfold countIn. cbn [Map_get Map_set]. split.
    + intros [= <- <-]. split; reflexivity.
    + intros [[= ->] ->]. reflexivity.
  - split; [discriminate | intros [H _]; discriminate H].
Qed.

(** X4: unless the palette is full, every counted pixel has a palette entry
    within squared distance 2500 of its quantized colour. *)
Theorem palette_covers (context : bool) (image : HTMLImageElement)
    (sampleRate maxColors : nat) (res : PaletteAnalysis) :
  extractColors context image sampleRate maxColors = Resolved res ->
  (List.length (all res) < maxColors)%nat ->
  forall i k fresh,
    In i (visited (raster image) sampleRate) ->
    sample (raster image) [] i = [(k, fresh)] ->
    exists c, In c (all res) /\ colorDistanceSq (rgb c) (rgbOf fresh) <= 2500.
Proof.
  intros Hres Hlen i k0 fresh Hi P. apply sample_first in P. destruct P as [P _].
  apply extractColors_Resolved in Hres. destruct Hres as (m & Hm & ->).
  pose proof (countColors_tracks _ _ _ Hm) as (Hkeys & _ & Hgood).
  assert (Hin : In (keyOf (rgbOf fresh)) (map fst m)).
  { apply Hkeys. unfold encounters. eapply keysAt_In; eassumption. }
  apply in_map_iff in Hin. destruct Hin as ([k v] & Ek & Hv). cbn [fst] in Ek.
  rewrite Forall_forall in Hgood. pose proof (Hgood _ Hv) as Gv.
  pose proof (goodEntry_valid _ Gv) as Vv. destruct Gv as (Kv & _). cbn [fst snd] in *.
  pose proof (goodEntry_valid _ (pixelBucket_good _ _ _ P)) as Vf. cbn [snd] in Vf.
  assert (Hsame : rgbOf v = rgbOf fresh) by (apply keyOf_inj; congruence).
  rewrite all_analyse, length_map in Hlen.
  assert (Hr : In v (ranking m)).
  { unfold ranking. apply (sort_In Bucket.count). apply (in_map snd) in Hv. exact Hv. }
  destruct (distinctLoop_covers maxColors (ranking m) [] Hlen v Hr) as (y & Hy & Hd).
  exists (colorData y). split.
  - rewrite all_analyse. apply in_map. exact Hy.
  - change (rgb (colorData y)) with (rgbOf y). rewrite <- Hsame. exact Hd.
Qed.

Lemma palette_covers_witness :
  extractColors true scenarioImage 1 8 = Resolved scenarioPalette
  /\ (List.length (all scenarioPalette) < 8)%nat
  /\ exists c, In c (all scenarioPalette)
               /\ colorDistanceSq (rgb c) (mkRGB 240 0 0) <= 2500.
Proof.
  assert (Hlen : (List.length (all scenarioPalette) < 8)%nat)
    by (cbn; repeat constructor).
  split; [exact scenario_resolved|]. split; [exact Hlen|].
  apply (palette_covers true scenarioImage 1 8 scenarioPalette scenario_resolved
           Hlen 4%nat 15728640 (Bucket.mk 1 240 0 0)).
  - vm_compute. right. left. reflexivity.
  - vm_compute. reflexivity.
Defined.

Lemma fold_skipped (data : list byte) (is_ : list nat) (m : ColorCounts) :
  (forall i, In i is_ -> JS.lt (element data (i + 3)) 200) ->
  fold_left (sample data) is_ m = m.
Proof.
  revert m. induction is_ as [|i is_ IH]; intros m H; cbn [fold_left]; [reflexivity|].
  rewrite sample_countIn. unfold pixelBucket.
  rewrite (H i (or_introl eq_refl)). apply IH.
  intros j Hj. apply H. right. exact Hj.
Qed.

(** X5: a raster whose sampled pixels all have alpha below 200 gives the
    empty palette, and not a failure. *)
Theorem clear_raster_empty (image : HTMLImageElement) (sampleRate maxColors : nat) :
  fst (canvasSize image) <> 0 -> snd (canvasSize image) <> 0 ->
  (1 <= sampleRate)%nat ->
  (forall i, In i (visited (raster image) sampleRate) ->
             JS.lt (element (raster image) (i + 3)) 200) ->
  extractColors true image sampleRate maxColors
  = Resolved (mkPaletteAnalysis [] [] [] [] []).
Proof.
  intros Hw Hh Hrate Hclear. rewrite extractColors_steps. cbn [negb].
  destruct (Z.eqb_spec (fst (canvasSize image)) 0); [contradiction|].
  destruct (Z.eqb_spec (snd (canvasSize image)) 0); [contradiction|].
  cbn [orb]. unfold countColors. unfold visited in Hclear.
  destruct (indices_total (List.length (raster image)) (List.length (raster image))
              (4 * sampleRate) 0) as [is_ E]; [lia | lia |].
  rewrite E in *. cbn [option_map].
  rewrite fold_skipped by assumption. reflexivity.
Qed.

Lemma clear_raster_empty_witness :
  extractColors true clearImage 1 8 = Resolved (mkPaletteAnalysis [] [] [] [] []).
Proof.
  apply (clear_raster_empty clearImage 1 8).
  - vm_compute. discriminate.
  - vm_compute. discriminate.
  - constructor.
  - intros i Hi. vm_compute in Hi. destruct Hi as [<- | []]. reflexivity.
Defined.

(** X6: with stride 0 the loop never leaves a raster that is not empty: the
    promise stays pending, whatever the number of iterations allowed. *)
Theorem stride_zero_pending (image : HTMLImageElement) (maxColors : nat) :
  fst (canvasSize image) <> 0 -> snd (canvasSize image) <> 0 ->
  raster image <> [] ->
  extractColors true image 0 maxColors = Pending
  /\ forall fuel, indices fuel (List.length (raster image)) (4 * 0) 0 = None.
Proof.
  intros Hw Hh Hdata.
  assert (Hlen : (0 < List.length (raster image))%nat).
  { destruct (raster image); [congruence | cbn; lia]. }
  split; [|intros fuel; apply indices_stuck, Hlen].
  rewrite extractColors_steps. cbn [negb].
  destruct (Z.eqb_spec (fst (canvasSize image)) 0); [contradiction|].
  destruct (Z.eqb_spec (snd (canvasSize image)) 0); [contradiction|].
  cbn [orb]. unfold countColors.
  change (4 * 0)%nat with 0%nat. rewrite indices_stuck by exact Hlen. reflexivity.
Qed.

Lemma stride_zero_pending_witness :
  extractColors true scenarioImage 0 8 = Pending.
Proof.
  apply (stride_zero_pending scenarioImage 8).
  - vm_compute. discriminate.
  - vm_compute. discriminate.
  - vm_compute. discriminate.
Defined.

Lemma rgbToHex_inj (c1 c2 : RGB) :
  validRGB c1 -> validRGB c2 -> rgbToHex c1 = rgbToHex c2 -> c1 = c2.
Proof.
  intros H1 H2 E. apply hexToRgb_rgbToHex in H1, H2.
  rewrite E in H1. congruence.
Qed.

Lemma NoDup_map_sorted {A B : Type} (R : A -> A -> Prop) (f : A -> B) (l : list A) :
  StronglySorted R l ->
  (forall x y, In x l -> In y l -> R x y -> f x <> f y) ->
  NoDup (map f l).
Proof.
  intros Hs Hne. induction Hs as [|a l Hs IH Hf]; cbn; constructor.
  - intros Hin. apply in_map_iff in Hin. destruct Hin as (y & Ey & Hy).
    rewrite Forall_forall in Hf.
    apply (Hne a y); [left; reflexivity | right; exact Hy | auto | congruence].
  - apply IH. intros x y Hx Hy. apply Hne; right; assumption.
Qed.

Lemma far_apart (x y : Bucket.t) : far x y -> rgbOf x <> rgbOf y.
Proof.
  unfold far, colorDistanceSq, minDistanceSq. intros H E. rewrite E in H.
  replace ((r (rgbOf y) - r (rgbOf y)) ^ 2 + (g (rgbOf y) - g (rgbOf y)) ^ 2
           + (b (rgbOf y) - b (rgbOf y)) ^ 2) with 0 in H by ring.
  lia.
Qed.

Lemma analyse_distinct (m : ColorCounts) (maxColors : nat) :
  Forall goodEntry m ->
  NoDup (map hex (all (analyse m maxColors)))
  /\ NoDup (map rgb (all (analyse m maxColors))).
Proof.
  intros Hgood. rewrite Forall_forall in Hgood.
  assert (Hfar : StronglySorted far (survivors m maxColors))
    by (apply distinctLoop_far; constructor).
  rewrite all_analyse, !map_map.
  split; apply (NoDup_map_sorted far _ _ Hfar); intros x y Hx Hy Hxy.
  - change (hex (colorData ?z)) with (rgbToHex (rgbOf z)). intros E.
    apply survivors_In in Hx, Hy. destruct Hx as (kx & Hx), Hy as (ky & Hy).
    apply (far_apart x y Hxy), rgbToHex_inj; [| |exact E].
    + exact (goodEntry_valid _ (Hgood _ Hx)).
    + exact (goodEntry_valid _ (Hgood _ Hy)).
  - change (rgb (colorData ?z)) with (rgbOf z). apply far_apart, Hxy.
Qed.

(** X7: no two entries of [all] have the same hex string, nor the same
    colour. *)
Theorem distinct_hex (context : bool) (image : HTMLImageElement)
    (sampleRate maxColors : nat) (res : PaletteAnalysis) :
  extractColors context image sampleRate maxColors = Resolved res ->
  NoDup (map hex (all res)) /\ NoDup (map rgb (all res)).
Proof.
  intros Hres. apply extractColors_Resolved in Hres. destruct Hres as (m & Hm & ->).
  pose proof (countColors_tracks _ _ _ Hm) as (_ & _ & Hgood).
  apply analyse_distinct, Hgood.
Qed.

Lemma distinct_hex_witness :
  extractColors true scenarioImage 1 8 = Resolved scenarioPalette
  /\ NoDup (map hex (all scenarioPalette)).
Proof.
  split; [exact scenario_resolved|].
  exact (proj1 (distinct_hex true scenarioImage 1 8 scenarioPalette scenario_resolved)).
Defined.

(** ** The sampled positions and rasters of one colour *)

Lemma indices_strides (length step : nat) :
  (1 <= step)%nat ->
  forall fuel i, (length <= i + fuel)%nat ->
    indices fuel length step i = Some (strides length step i).
Proof.
  intros Hstep fuel. induction fuel as [|fuel IH]; intros i Hi;
    cbn [indices]; unfold strides;
    destruct (Nat.ltb_spec i length) as [Hlt | Hge]; try lia; try reflexivity.
  rewrite IH by lia. cbn [option_map]. f_equal.
  cbn [seq map]. rewrite Nat.add_0_r. f_equal.
  rewrite <- seq_shift, map_map. unfold strides.
  destruct (Nat.ltb_spec (i + step) length) as [Hlt' | Hge'].
  - replace ((length - 1 - i) / step)%nat with (S ((length - 1 - (i + step)) / step)).
    + apply map_ext. intros k. lia.
    + replace (length - 1 - i)%nat with ((length - 1 - (i + step)) + 1 * step)%nat by lia.
      rewrite Nat.div_add by lia. lia.
  - rewrite Nat.div_small by lia. reflexivity.
Qed.

Lemma visited_strides (data : list byte) (sampleRate : nat) :
  (1 <= sampleRate)%nat ->
  visited data sampleRate
  = map (fun k => (k * (4 * sampleRate))%nat)
        (seq 0 (samples (List.length data) (4 * sampleRate))).
Proof.
  intros H. unfold visited.
  rewrite (indices_strides (List.length data) (4 * sampleRate)) by lia. unfold strides, samples.
  destruct (List.length data) as [|n] eqn:E; [reflexivity|].
  destruct (Nat.ltb_spec 0 (S n)); [|lia].
  replace (S n - 1 - 0)%nat with n by lia. reflexivity.
Qed.

(** X8: for a stride of at least 1 the loop samples the indices
    [0, 4 * stride, 8 * stride, ...] below the length of the data, and no
    other; with a stride of at least the pixel count that is the first pixel
    only. *)
Theorem sampled_positions (data : list byte) (sampleRate : nat) :
  (1 <= sampleRate)%nat ->
  countColors data sampleRate
  = Some (fold_left (sample data)
            (map (fun k => (k * (4 * sampleRate))%nat)
                 (seq 0 (samples (List.length data) (4 * sampleRate))))
            [])
  /\ (data <> [] -> (List.length data <= 4 * sampleRate)%nat ->
      countColors data sampleRate = Some (sample data [] 0)).
Proof.
  intros H.
  assert (E : countColors data sampleRate
              = Some (fold_left (sample data) (visited data sampleRate) [])).
  { unfold countColors, visited.
    destruct (indices_total (List.length data) (List.length data) (4 * sampleRate) 0)
      as [is_ ->]; [lia | lia | reflexivity]. }
  rewrite E, visited_strides by exact H. split; [reflexivity|].
  intros Hdata Hlen. unfold samples.
  destruct (List.length data) as [|n] eqn:En.
  - destruct data; [congruence | discriminate].
  - rewrite Nat.div_small by lia. reflexivity.
Qed.

Lemma sampled_positions_witness :
  (1 <= 1)%nat
  /\ countColors scenarioData 1
     = Some (fold_left (sample scenarioData) [0; 4; 8; 12]%nat []).
Proof.
  split; [constructor|].
  exact (proj1 (sampled_positions scenarioData 1 (le_n 1))).
Defined.

(** *** A raster of one colour *)

Lemma solidRaster_length (r g b a : byte) (n : nat) :
  List.length (solidRaster r g b a n) = (4 * n)%nat.
Proof.
  unfold solidRaster. induction n as [|n IH]; cbn [repeat List.concat]; [reflexivity|].
  rewrite length_app, IH. cbn. lia.
Qed.

Lemma solidRaster_nth (r g b a : byte) (n j c : nat) :
  (j < n)%nat -> (c < 4)%nat ->
  nth_error (solidRaster r g b a n) (4 * j + c) = nth_error [r; g; b; a] c.
Proof.
  unfold solidRaster. revert j.
  induction n as [|n IH]; intros j Hj Hc; [lia|].
  cbn [repeat List.concat]. destruct j as [|j].
  - rewrite nth_error_app1 by (cbn; lia). reflexivity.
  - rewrite nth_error_app2 by (cbn; lia).
    replace (4 * S j + c - List.length [r; g; b; a])%nat with (4 * j + c)%nat
      by (cbn; lia).
    apply IH; lia.
Qed.

Lemma alpha_test (v : byte) :
  (JS.num (channel v) <? 200)%float = (channel v <? 200).
Proof. destruct v; vm_compute; reflexivity. Qed.

Lemma pixelBucket_solid (r g b a : byte) (n j : nat) :
  (j < n)%nat -> 200 <= channel a ->
  pixelBucket (solidRaster r g b a n) (4 * j)
  = Some (Bucket.mk 1 (floor12 r) (floor12 g) (floor12 b)).
Proof.
  intros Hj Ha. unfold pixelBucket, element.
  rewrite (solidRaster_nth r g b a n j 3), (solidRaster_nth r g b a n j 1),
    (solidRaster_nth r g b a n j 2) by lia.
  replace (nth_error (solidRaster r g b a n) (4 * j)) with (nth_error [r; g; b; a] 0)
    by (rewrite <- (solidRaster_nth r g b a n j 0) by lia; f_equal; lia).
  cbn [nth_error].
  fold (channel a) (channel r) (channel g) (channel b).
  rewrite alpha_test. destruct (Z.ltb_spec (channel a) 200); [lia|].
  unfold channel. rewrite !quantized_byte. reflexivity.
Qed.

Lemma fold_one_bucket (data : list byte) (fresh : Bucket.t) (is_ : list nat) :
  Bucket.count fresh = 1 ->
  (forall i, In i is_ -> pixelBucket data i = Some fresh) ->
  forall c,
    fold_left (sample data) is_
      [(keyOf (rgbOf fresh),
        Bucket.mk c (Bucket.r fresh) (Bucket.g fresh) (Bucket.b fresh))]
    = [(keyOf (rgbOf fresh),
        Bucket.mk (c + Z.of_nat (List.length is_)) (Bucket.r fresh) (Bucket.g fresh)
          (Bucket.b fresh))].
Proof.
  intros Hone. induction is_ as [|i is_ IH]; intros H c; cbn [fold_left List.length].
  - rewrite Z.add_0_r. reflexivity.
  - rewrite sample_countIn, (H i (or_introl eq_refl)). unfold countIn. cbv zeta.
    generalize dependent (keyOf (rgbOf fresh)). intros k IH.
    cbn [Map_get]. rewrite Z.eqb_refl. cbn [Map_set]. rewrite Z.eqb_refl.
    cbn [Bucket.count Bucket.r Bucket.g Bucket.b].
    rewrite IH by (intros j Hj; apply H; right; exact Hj).
    replace (c + Z.of_nat (S (List.length is_))) with (c + 1 + Z.of_nat (List.length is_))
      by lia.
    reflexivity.
Qed.

Lemma fold_solid (data : list byte) (fresh : Bucket.t) (is_ : list nat) :
  Bucket.count fresh = 1 -> is_ <> [] ->
  (forall i, In i is_ -> pixelBucket data i = Some fresh) ->
  fold_left (sample data) is_ []
  = [(keyOf (rgbOf fresh),
      Bucket.mk (Z.of_nat (List.length is_)) (Bucket.r fresh) (Bucket.g fresh)
        (Bucket.b fresh))].
Proof.
  intros Hone Hne H. destruct is_ as [|i is_]; [congruence|].
  cbn [fold_left]. rewrite sample_countIn, (H i (or_introl eq_refl)).
  unfold countIn. cbv zeta. cbn [Map_get Map_set].
  destruct fresh as [c0 r0 g0 b0]. cbn [Bucket.count] in Hone. subst c0.
  rewrite (fold_one_bucket data (Bucket.mk 1 r0 g0 b0) is_ eq_refl)
    by (intros j Hj; apply H; right; exact Hj).
  cbn [Bucket.r Bucket.g Bucket.b List.length].
  replace (Z.of_nat (S (List.length is_))) with (1 + Z.of_nat (List.length is_)) by lia.
  reflexivity.
Qed.

Lemma samples_pixels (n sampleRate : nat) :
  (1 <= n)%nat -> (1 <= sampleRate)%nat ->
  samples (4 * n) (4 * sampleRate) = S ((n - 1) / sampleRate).
Proof.
  intros Hn Hs. unfold samples.
  destruct (4 * n)%nat as [|l] eqn:E; [lia|]. f_equal.
  assert (El : l = (4 * (n - 1) + 3)%nat) by lia. rewrite El.
  symmetry.
  apply (Nat.div_unique _ _ _ (4 * ((n - 1) mod sampleRate) + 3)).
  - pose proof (Nat.mod_upper_bound (n - 1) sampleRate ltac:(lia)). lia.
  - pose proof (Nat.div_mod_eq (n - 1) sampleRate). nia.
Qed.


Lemma countColors_solid (r g b a : byte) (n sampleRate : nat) :
  (1 <= n)%nat -> (1 <= sampleRate)%nat -> 200 <= channel a ->
  countColors (solidRaster r g b a n) sampleRate
  = Some [(keyOf (mkRGB (floor12 r) (floor12 g) (floor12 b)),
           Bucket.mk (Z.of_nat (S ((n - 1) / sampleRate)))
             (floor12 r) (floor12 g) (floor12 b))].
Proof.
  intros Hn Hs Ha.
  assert (E : countColors (solidRaster r g b a n) sampleRate
              = Some (fold_left (sample (solidRaster r g b a n))
                        (visited (solidRaster r g b a n) sampleRate) [])).
  { unfold countColors, visited.
    destruct (indices_total (List.length (solidRaster r g b a n))
                (List.length (solidRaster r g b a n)) (4 * sampleRate) 0)
      as [is_ ->]; [lia | lia | reflexivity]. }
  rewrite E, visited_strides by exact Hs.
  rewrite solidRaster_length, samples_pixels by assumption.
  rewrite (fold_solid _ (Bucket.mk 1 (floor12 r) (floor12 g) (floor12 b))).
  - rewrite length_map, length_seq. reflexivity.
  - reflexivity.
  - discriminate.
  - intros i Hi. apply in_map_iff in Hi. destruct Hi as (k & <- & Hk).
    apply in_seq in Hk.
    replace (k * (4 * sampleRate))%nat with (4 * (k * sampleRate))%nat by lia.
    apply pixelBucket_solid; [|exact Ha].
    pose proof (Nat.Div0.mul_div_le (n - 1) sampleRate).
    assert (k * sampleRate <= (n - 1) / sampleRate * sampleRate)%nat
      by (apply Nat.mul_le_mono_r; lia).
    lia.
Qed.

(** X9: a raster of [n] pixels of one colour with alpha 200 or more gives a
    palette of exactly one entry: the colour with each channel floored to a
    multiple of 12, with the number of sampled pixels,
    [1 + (n - 1) / stride], as its population. *)
Theorem solid_raster_palette (image : HTMLImageElement) (r g b a : byte)
    (n sampleRate maxColors : nat) :
  fst (canvasSize image) <> 0 -> snd (canvasSize image) <> 0 ->
  raster image = solidRaster r g b a n ->
  (1 <= n)%nat -> 200 <= channel a ->
  (1 <= sampleRate)%nat -> (1 <= maxColors)%nat ->
  exists res c,
    extractColors true image sampleRate maxColors = Resolved res
    /\ all res = [c]
    /\ rgb c = mkRGB (floor12 r) (floor12 g) (floor12 b)
    /\ hex c = rgbToHex (rgb c)
    /\ population c = Z.of_nat (S ((n - 1) / sampleRate)).
Proof.
  intros Hw Hh Hdata Hn Ha Hs Hmax.
  rewrite extractColors_steps. cbn [negb].
  destruct (Z.eqb_spec (fst (canvasSize image)) 0); [contradiction|].
  destruct (Z.eqb_spec (snd (canvasSize image)) 0); [contradiction|].
  cbn [orb]. rewrite Hdata, countColors_solid by assumption.
  eexists. eexists. split; [reflexivity|].
  unfold analyse. cbn [map snd JS.sort JS.insert distinctLoop List.length forallb all].
  destruct (Nat.leb_spec maxColors 0); [lia|].
  cbn [app distinctLoop map]. repeat split; reflexivity.
Qed.

Lemma solid_raster_palette_witness :
  exists res c,
    extractColors true (mkImage 3 1 (fun _ _ => solidRaster xff x80 x00 xff 3)) 2 8
    = Resolved res
    /\ all res = [c]
    /\ rgb c = mkRGB (floor12 xff) (floor12 x80) (floor12 x00)
    /\ hex c = rgbToHex (rgb c)
    /\ population c = Z.of_nat (S ((3 - 1) / 2)).
Proof.
  apply (solid_raster_palette (mkImage 3 1 (fun _ _ => solidRaster xff x80 x00 xff 3))
           xff x80 x00 xff 3 2 8).
  - vm_compute. discriminate.
  - vm_compute. discriminate.
  - reflexivity.
  - repeat constructor.
  - vm_compute. discriminate.
  - repeat constructor.
  - repeat constructor.
Defined.

(** X10: quantization never raises a channel and lowers it by at most 11: the
    bucket the loop opens for a pixel has, in each channel, the largest
    multiple of 12 that is at most the pixel's byte. *)
Theorem quantization_error (data : list byte) (i : nat) (k : Z) (fresh : Bucket.t)
    (vr vg vb : byte) :
  sample data [] i = [(k, fresh)] ->
  nth_error data i = Some vr -> nth_error data (i + 1) = Some vg ->
  nth_error data (i + 2) = Some vb ->
  (Bucket.r fresh <= channel vr <= Bucket.r fresh + 11 /\ Bucket.r fresh mod 12 = 0)
  /\ (Bucket.g fresh <= channel vg <= Bucket.g fresh + 11 /\ Bucket.g fresh mod 12 = 0)
  /\ (Bucket.b fresh <= channel vb <= Bucket.b fresh + 11 /\ Bucket.b fresh mod 12 = 0).
Proof.
  intros S0 Hr Hg Hb. apply sample_first in S0. destruct S0 as [P _].
  revert P. unfold pixelBucket, element.
  destruct (_ <? _)%float; [discriminate|].
  intros [= <-]. rewrite Hr, Hg, Hb. cbn [Bucket.r Bucket.g Bucket.b].
  rewrite !quantized_byte. fold (channel vr) (channel vg) (channel vb).
  assert (H : forall z, (z / 12 * 12 <= z <= z / 12 * 12 + 11) /\ (z / 12 * 12) mod 12 = 0).
  { intros z. pose proof (Z.div_mod z 12 ltac:(lia)).
    pose proof (Z.mod_pos_bound z 12 ltac:(lia)).
    rewrite Z.mod_mul by lia. lia. }
  repeat split; apply H.
Qed.

Lemma quantization_error_witness :
  Bucket.r (Bucket.mk 1 240 0 0) <= channel xfa <= Bucket.r (Bucket.mk 1 240 0 0) + 11.
Proof.
  refine (proj1 (proj1 (quantization_error scenarioData 4 15728640 (Bucket.mk 1 240 0 0)
                          xfa x05 x05 _ eq_refl eq_refl eq_refl))).
  vm_compute. reflexivity.
Defined.

(** ** Hex strings, distances and categories *)

Lemma hexCharOk_all (c : ascii) : hexCharOk c = true.
Proof. destruct c as [[] [] [] [] [] [] [] []]; reflexivity. Qed.

Lemma hexClass_digit (c : ascii) :
  hexClass c = true ->
  exists d, JS.hexValue c = Some d /\ 0 <= d < 16 /\ JS.hexDigit d = lowerChar c.
Proof.
  intros H. pose proof (hexCharOk_all c) as Hok. unfold hexCharOk in Hok.
  rewrite H in Hok. destruct (JS.hexValue c) as [d|]; [|discriminate].
  apply andb_prop in Hok. destruct Hok as [Hok He].
  apply andb_prop in Hok. destruct Hok as [H0 H16].
  apply Z.leb_le in H0. apply Z.ltb_lt in H16. apply Ascii.eqb_eq in He.
  exists d. repeat split; assumption.
Qed.

Lemma parseInt16_chars (c1 c0 : ascii) (d1 d0 : Z) :
  JS.hexValue c1 = Some d1 -> JS.hexValue c0 = Some d0 ->
  JS.parseInt16 (String c1 (String c0 EmptyString)) = 16 * d1 + d0.
Proof.
  intros H1 H0. unfold JS.parseInt16. cbn [JS.parseDigits].
  rewrite H1. cbn [JS.parseDigits]. rewrite H0. cbn [JS.parseDigits]. lia.
Qed.

Lemma hi_lo_pair (d1 d0 : Z) :
  0 <= d1 < 16 -> 0 <= d0 < 16 ->
  0 <= 16 * d1 + d0 <= 255 /\ hi (16 * d1 + d0) = d1 /\ lo (16 * d1 + d0) = d0.
Proof.
  intros H1 H0. unfold hi, lo. split; [lia|]. split.
  - symmetry. apply Z.div_unique with d0; lia.
  - symmetry. apply Z.mod_unique with d1; lia.
Qed.

(** X11: what [hexToRgb] returns has channels in [0,255], and [rgbToHex]
    turns it back into the input in lowercase, with a [#] in front whether
    the input had one or not. *)
Theorem hexToRgb_canonical (hex : string) (c : RGB) :
  hexToRgb hex = Some c ->
  validRGB c /\ rgbToHex c = String "#" (lowerString (optionalHash hex)).
Proof.
  unfold hexToRgb, execHex. intros H.
  destruct (groups (optionalHash hex)) as [[[g1 g2] g3]|] eqn:G; [|discriminate].
  injection H as <-.
  pose proof (groups_Some _ _ G) as (c1 & c2 & c3 & c4 & c5 & c6 & E & Hall).
  rewrite E in G. rewrite (groups_six _ _ _ _ _ _ Hall) in G.
  injection G as <- <- <-. rewrite E.
  inversion Hall as [|? ? K1 Hall1]; subst. inversion Hall1 as [|? ? K2 Hall2]; subst.
  inversion Hall2 as [|? ? K3 Hall3]; subst. inversion Hall3 as [|? ? K4 Hall4]; subst.
  inversion Hall4 as [|? ? K5 Hall5]; subst. inversion Hall5 as [|? ? K6 _]; subst.
  destruct (hexClass_digit c1 K1) as (d1 & V1 & B1 & L1).
  destruct (hexClass_digit c2 K2) as (d2 & V2 & B2 & L2).
  destruct (hexClass_digit c3 K3) as (d3 & V3 & B3 & L3).
  destruct (hexClass_digit c4 K4) as (d4 & V4 & B4 & L4).
  destruct (hexClass_digit c5 K5) as (d5 & V5 & B5 & L5).
  destruct (hexClass_digit c6 K6) as (d6 & V6 & B6 & L6).
  rewrite (parseInt16_chars c1 c2 d1 d2 V1 V2), (parseInt16_chars c3 c4 d3 d4 V3 V4),
    (parseInt16_chars c5 c6 d5 d6 V5 V6).
  destruct (hi_lo_pair d1 d2 B1 B2) as (R & Rh & Rl).
  destruct (hi_lo_pair d3 d4 B3 B4) as (Gr & Gh & Gl).
  destruct (hi_lo_pair d5 d6 B5 B6) as (Bl & Bh & Blo).
  assert (V : validRGB (mkRGB (16 * d1 + d2) (16 * d3 + d4) (16 * d5 + d6)))
    by (unfold validRGB; cbn [r g b]; auto).
  split; [exact V|].
  rewrite (rgbToHex_digits _ V). cbn [r g b lowerString].
  rewrite Rh, Rl, Gh, Gl, Bh, Blo, L1, L2, L3, L4, L5, L6. reflexivity.
Qed.

Lemma hexToRgb_canonical_witness :
  hexToRgb "#FC00a0" = Some (mkRGB 252 0 160)
  /\ rgbToHex (mkRGB 252 0 160) = "#fc00a0"%string.
Proof.
  assert (H : hexToRgb "#FC00a0" = Some (mkRGB 252 0 160)) by reflexivity.
  split; [exact H|].
  exact (proj2 (hexToRgb_canonical "#FC00a0" (mkRGB 252 0 160) H)).
Defined.

(** X12: distinct colours of 8-bit channels get distinct hex strings. *)
Theorem rgbToHex_injective (c1 c2 : RGB) :
  validRGB c1 -> validRGB c2 -> rgbToHex c1 = rgbToHex c2 -> c1 = c2.
Proof. apply rgbToHex_inj. Qed.

Lemma rgbToHex_injective_witness :
  validRGB (mkRGB 1 2 3) /\ validRGB (mkRGB 1 2 4)
  /\ (rgbToHex (mkRGB 1 2 3) = rgbToHex (mkRGB 1 2 4) -> mkRGB 1 2 3 = mkRGB 1 2 4).
Proof.
  assert (H1 : validRGB (mkRGB 1 2 3)) by (unfold validRGB; cbn; lia).
  assert (H2 : validRGB (mkRGB 1 2 4)) by (unfold validRGB; cbn; lia).
  split; [exact H1|]. split; [exact H2|].
  exact (rgbToHex_injective (mkRGB 1 2 3) (mkRGB 1 2 4) H1 H2).
Defined.


(** X13: the squared distance is symmetric, never negative, and 0 exactly
    between a colour and itself. *)
Theorem colorDistanceSq_metric (c1 c2 : RGB) :
  colorDistanceSq c1 c2 = colorDistanceSq c2 c1
  /\ 0 <= colorDistanceSq c1 c2
  /\ (colorDistanceSq c1 c2 = 0 <-> c1 = c2).
Proof.
  unfold colorDistanceSq. split; [ring|]. split; [nia|].
  destruct c1 as [r1 g1 b1], c2 as [r2 g2 b2]. cbn [r g b]. split.
  - intros H. assert (r1 = r2) by nia. assert (g1 = g2) by nia.
    assert (b1 = b2) by nia. congruence.
  - intros [= -> -> ->]. ring.
Qed.

(** *** Grays and accents *)

(** X14: a gray (three equal channels) is Neutral and no accent. *)
Theorem gray_is_neutral (c : RGB) :
  validRGB c -> r c = g c -> g c = b c ->
  categorizeColor (rgbToHsl c) = Neutral /\ isAccentColor (rgbToHsl c) = false.
Proof.
  intros Hc Hrg Hgb.
  destruct (rgbToHsl_gray c Hc Hrg Hgb) as [_ Hs].
  destruct (rgbToHsl c) as [hue sat lig]. cbn [s] in Hs. subst sat.
  split; reflexivity.
Qed.

Lemma gray_is_neutral_witness :
  validRGB (mkRGB 128 128 128)
  /\ categorizeColor (rgbToHsl (mkRGB 128 128 128)) = Neutral.
Proof.
  assert (H : validRGB (mkRGB 128 128 128)) by (unfold validRGB; cbn; lia).
  split; [exact H|].
  exact (proj1 (gray_is_neutral (mkRGB 128 128 128) H eq_refl eq_refl)).
Defined.

Lemma SFleb_positive (m : positive) (e : Z) (y : spec_float) :
  SFleb (S754_finite false m e) y = true ->
  y = S754_infinity false \/ exists m' e', y = S754_finite false m' e'.
Proof.
  destruct y as [s0 | [|] | | [|] m' e']; cbn; try discriminate; eauto.
Qed.

(** A number at least [a] is not at most [b], for positive [b < a]. *)
Lemma above_not_below (a b y : float) (ma mb : positive) (ea eb : Z) :
  Prim2SF a = S754_finite false ma ea -> Prim2SF b = S754_finite false mb eb ->
  eb < ea \/ (eb = ea /\ (mb < ma)%positive) ->
  (a <=? y)%float = true -> (y <=? b)%float = false.
Proof.
  intros Ea Eb Hlt. rewrite !leb_spec, Ea, Eb. generalize (Prim2SF y).
  intros sy Hay.
  destruct (SFleb_positive _ _ _ Hay) as [-> | (m & e & ->)]; [reflexivity|].
  apply SFleb_finite in Hay.
  destruct (SFleb (S754_finite false m e) (S754_finite false mb eb)) eqn:Hyb;
    [|reflexivity].
  apply SFleb_finite in Hyb. exfalso. lia.
Qed.

Lemma accent_is_coloured (c : HSL) :
  isAccentColor c = true -> categorizeColor c <> Neutral.
Proof.
  destruct c as [hue sat lig]. unfold isAccentColor, categorizeColor. cbn [s l].
  intros H. apply andb_prop in H. destruct H as [H Hl2].
  apply andb_prop in H. destruct H as [Hs Hl1].
  rewrite (above_not_below 0.45 0.18 sat _ _ _ _ eq_refl eq_refl) by first [assumption | left; reflexivity | right; split; reflexivity].
  rewrite (above_not_below 0.2 0.12 lig _ _ _ _ eq_refl eq_refl) by first [assumption | left; reflexivity | right; split; reflexivity].
  destruct (0.95 <=? lig)%float eqn:Hl3.
  - rewrite (above_not_below 0.95 0.85 lig _ _ _ _ eq_refl eq_refl) in Hl2
      by first [assumption | left; reflexivity | right; split; reflexivity].
    discriminate Hl2.
  - cbn [orb]. destruct (_ || _); discriminate.
Qed.

(** X15: an accent is never Neutral: it is Warm or Cool. *)
Theorem accent_not_neutral (c : HSL) :
  isAccentColor c = true ->
  categorizeColor c = Warm \/ categorizeColor c = Cool.
Proof.
  intros H. pose proof (accent_is_coloured c H).
  destruct (categorizeColor c); auto. congruence.
Qed.

Lemma accent_not_neutral_witness :
  isAccentColor (rgbToHsl (mkRGB 252 0 0)) = true
  /\ (categorizeColor (rgbToHsl (mkRGB 252 0 0)) = Warm
      \/ categorizeColor (rgbToHsl (mkRGB 252 0 0)) = Cool).
Proof.
  assert (H : isAccentColor (rgbToHsl (mkRGB 252 0 0)) = true) by reflexivity.
  split; [exact H | exact (accent_not_neutral _ H)].
Defined.

(** X16: in a result, the accents are among the warm and cool entries, and
    none is neutral. *)
Theorem accents_are_coloured (context : bool) (image : HTMLImageElement)
    (sampleRate maxColors : nat) (res : PaletteAnalysis) :
  extractColors context image sampleRate maxColors = Resolved res ->
  forall c, In c (accents res) ->
    (In c (warm res) \/ In c (cool res)) /\ ~ In c (neutral res).
Proof.
  intros Hres c Hc.
  apply extractColors_Resolved in Hres. destruct Hres as (m & _ & ->).
  unfold analyse in *. cbn [all warm cool neutral accents] in *.
  rewrite !filter_In in *. destruct Hc as [Hin Hacc].
  assert (Hcat : category c <> Neutral).
  { apply in_map_iff in Hin. destruct Hin as (x & <- & _).
    change (category (colorData x)) with (categorizeColor (hsl (colorData x))).
    apply accent_is_coloured, Hacc. }
  unfold isWarm, isCool, isNeutral.
  destruct (category c); try congruence; split;
    try (intros [_ H]; discriminate H); auto.
Qed.

Lemma accents_are_coloured_witness :
  extractColors true scenarioImage 1 8 = Resolved scenarioPalette
  /\ forall c, In c (accents scenarioPalette) ->
       (In c (warm scenarioPalette) \/ In c (cool scenarioPalette))
       /\ ~ In c (neutral scenarioPalette).
Proof.
  split; [exact scenario_resolved|].
  exact (accents_are_coloured true scenarioImage 1 8 scenarioPalette scenario_resolved).
Defined.

(** ** The canvas, the keys and the application *)

(** *** The canvas of a small image *)

Lemma max2_either (a b : float) :
  is_nan a = false -> is_nan b = false -> JS.max2 a b = a \/ JS.max2 a b = b.
Proof.
  intros Ha Hb. unfold JS.max2. rewrite Ha, Hb. cbn [orb].
  destruct (a <? b)%float; [right; reflexivity|].
  destruct (b <? a)%float; [left; reflexivity|].
  destruct (get_sign a); [right | left]; reflexivity.
Qed.

Lemma smallSides_keep : forallb keepsSide smallSides = true.
Proof. vm_compute. reflexivity. Qed.

Lemma keepsSide_small (w : Z) :
  1 <= w <= 150 ->
  is_nan (JS.num w) = false
  /\ JS.min2 1 (150 / JS.num w) = 1%float
  /\ JS.ToUint32 (JS.Math_floor (JS.num w * 1)) = w.
Proof.
  intros Hw. pose proof smallSides_keep as H.
  rewrite forallb_forall in H. specialize (H w).
  assert (Hin : In w smallSides).
  { unfold smallSides. apply in_map_iff. exists (Z.to_nat w).
    split; [lia|]. apply in_seq. lia. }
  apply H in Hin. unfold keepsSide in Hin.
  apply andb_true_iff in Hin. destruct Hin as [Hin H3].
  apply andb_true_iff in Hin. destruct Hin as [H1 H2].
  apply negb_true_iff in H1. apply Leibniz.eqb_spec in H2. apply Z.eqb_eq in H3.
  auto.
Qed.

Lemma canvasSize_small (image : HTMLImageElement) :
  1 <= naturalWidth image <= 150 -> 1 <= naturalHeight image <= 150 ->
  canvasSize image = (naturalWidth image, naturalHeight image).
Proof.
  intros Hw Hh.
  destruct (keepsSide_small _ Hw) as (Nw & Sw & Fw).
  destruct (keepsSide_small _ Hh) as (Nh & Sh & Fh).
  unfold canvasSize.
  destruct (max2_either _ _ Nw Nh) as [-> | ->].
  - rewrite Sw, Fw, Fh. reflexivity.
  - rewrite Sh, Fw, Fh. reflexivity.
Qed.

(** X17: an image of at most 150 by 150 pixels is sampled at its natural
    size: the canvas has its width and height, and the result is that of
    the bytes drawn at this size. *)
Theorem small_image_natural_size (image : HTMLImageElement)
    (sampleRate maxColors : nat) :
  1 <= naturalWidth image <= 150 -> 1 <= naturalHeight image <= 150 ->
  canvasSize image = (naturalWidth image, naturalHeight image)
  /\ extractColors true image sampleRate maxColors
     = match countColors (drawn image (naturalWidth image) (naturalHeight image))
                         sampleRate with
       | None => Pending
       | Some colorCounts => Resolved (analyse colorCounts maxColors)
       end.
Proof.
  intros Hw Hh. pose proof (canvasSize_small image Hw Hh) as E.
  split; [exact E|].
  rewrite extractColors_steps. unfold raster. rewrite E. cbn [fst snd negb].
  destruct (Z.eqb_spec (naturalWidth image) 0) as [H|_]; [lia|].
  destruct (Z.eqb_spec (naturalHeight image) 0) as [H|_]; [lia|].
  reflexivity.
Qed.

Lemma small_image_natural_size_witness :
  (1 <= naturalWidth scenarioImage <= 150 /\ 1 <= naturalHeight scenarioImage <= 150)
  /\ canvasSize scenarioImage
     = (naturalWidth scenarioImage, naturalHeight scenarioImage).
Proof.
  assert (Hw : 1 <= naturalWidth scenarioImage <= 150) by (cbn; lia).
  assert (Hh : 1 <= naturalHeight scenarioImage <= 150) by (cbn; lia).
  split; [split; assumption|].
  exact (proj1 (small_image_natural_size scenarioImage 1 8 Hw Hh)).
Defined.

(** *** The key of a bucket *)

(** X18: two counted pixels get the same key exactly when they have the same
    quantized colour: a bucket of the map never mixes two colours. *)
Theorem key_faithful (data : list byte) (i j : nat) (k1 k2 : Z)
    (fresh1 fresh2 : Bucket.t) :
  sample data [] i = [(k1, fresh1)] -> sample data [] j = [(k2, fresh2)] ->
  (k1 = k2 <-> rgbOf fresh1 = rgbOf fresh2).
Proof.
  intros H1 H2. apply sample_first in H1, H2.
  destruct H1 as [P1 ->], H2 as [P2 ->].
  split; [|intros ->; reflexivity].
  apply keyOf_inj.
  - exact (goodEntry_valid _ (pixelBucket_good _ _ _ P1)).
  - exact (goodEntry_valid _ (pixelBucket_good _ _ _ P2)).
Qed.

Lemma key_faithful_witness :
  sample scenarioData [] 0 = [(16515072, Bucket.mk 1 252 0 0)]
  /\ sample scenarioData [] 4 = [(15728640, Bucket.mk 1 240 0 0)]
  /\ (16515072 = 15728640
      <-> rgbOf (Bucket.mk 1 252 0 0) = rgbOf (Bucket.mk 1 240 0 0)).
Proof.
  assert (H1 : sample scenarioData [] 0 = [(16515072, Bucket.mk 1 252 0 0)])
    by (vm_compute; reflexivity).
  assert (H2 : sample scenarioData [] 4 = [(15728640, Bucket.mk 1 240 0 0)])
    by (vm_compute; reflexivity).
  split; [exact H1|]. split; [exact H2|].
  exact (key_faithful scenarioData 0 4 _ _ _ _ H1 H2).
Defined.

(** *** Custom colours *)

Lemma removeCustomColor_distinct (hexToRemove : string) (customColors : list ColorData) :
  NoDup (map hex customColors) ->
  NoDup (map hex (removeCustomColor hexToRemove customColors)).
Proof.
  unfold removeCustomColor.
  induction customColors as [|c rest IH]; cbn [map filter]; [auto|].
  intros H. inversion H as [|? ? Hnew Hrest]; subst.
  destruct (negb (hex c =? hexToRemove)%string); cbn [map]; [|auto].
  constructor; [|auto].
  rewrite in_map_iff. intros (x & E & Hx). apply filter_In in Hx.
  apply Hnew, in_map_iff. exists x. tauto.
Qed.

Lemma NoDup_map_snoc {A B : Type} (f : A -> B) (l : list A) (a : A) :
  NoDup (map f l) -> ~ In (f a) (map f l) -> NoDup (map f (l ++ [a])).
Proof.
  induction l as [|x l IH]; cbn.
  - intros _ _. constructor; [auto | constructor].
  - intros H Hn. inversion H as [|? ? Hx Hl]; subst.
    constructor.
    + rewrite map_app, in_app_iff. cbn. intros [Hin | [E | []]]; [auto|].
      apply Hn. left. auto.
    + apply IH; [exact Hl|]. intros Hin. apply Hn. right. exact Hin.
Qed.

Lemma some_hex (customColors : list ColorData) (hx : string) :
  existsb (fun c => (hex c =? hx)%string) customColors = true
  <-> In hx (map hex customColors).
Proof.
  rewrite existsb_exists, in_map_iff. split.
  - intros (c & Hc & E). apply String.eqb_eq in E. eauto.
  - intros (c & E & Hc). exists c. split; [exact Hc|]. apply String.eqb_eq, E.
Qed.

Lemma some_hex_false (customColors : list ColorData) (hx : string) :
  existsb (fun c => (hex c =? hx)%string) customColors = false
  <-> ~ In hx (map hex customColors).
Proof.
  rewrite <- some_hex. destruct (existsb _ _); split; congruence.
Qed.

(** What a click keeps true of the list. *)
Lemma click_keeps (P : ColorData -> Prop) (customColors : list ColorData) (e : Click) :
  (forall pixelObj, e = Add (Some pixelObj) ->
     ~ In (Pixel.hex pixelObj) (map hex customColors) ->
     P (mkColorData (Pixel.hex pixelObj) (Pixel.rgb pixelObj)
          (rgbToHsl (Pixel.rgb pixelObj))
          (categorizeColor (rgbToHsl (Pixel.rgb pixelObj))) 0)) ->
  NoDup (map hex customColors) /\ Forall P customColors ->
  NoDup (map hex (click customColors e)) /\ Forall P (click customColors e).
Proof.
  intros Hnew [Hd Hp]. destruct e as [[p|]|hx]; cbn [click addColorToPalette].
  - destruct (existsb _ _) eqn:Ex; [auto|].
    apply some_hex_false in Ex. split.
    + apply NoDup_map_snoc; [exact Hd|exact Ex].
    + apply Forall_app. split; [exact Hp|].
      constructor; [|constructor]. apply Hnew; [reflexivity|exact Ex].
  - auto.
  - split.
    + apply removeCustomColor_distinct, Hd.
    + unfold removeCustomColor. rewrite Forall_forall in *. intros c Hc. apply filter_In in Hc. apply Hp, Hc.
Qed.

Lemma clicks_keep (P : ColorData -> Prop) (clicks : list Click) :
  (forall pixelObj, In (Add (Some pixelObj)) clicks ->
     P (mkColorData (Pixel.hex pixelObj) (Pixel.rgb pixelObj)
          (rgbToHsl (Pixel.rgb pixelObj))
          (categorizeColor (rgbToHsl (Pixel.rgb pixelObj))) 0)) ->
  forall customColors,
  NoDup (map hex customColors) /\ Forall P customColors ->
  NoDup (map hex (fold_left click clicks customColors))
  /\ Forall P (fold_left click clicks customColors).
Proof.
  induction clicks as [|e clicks IH]; intros Hnew customColors H; cbn [fold_left].
  - exact H.
  - apply IH.
    + intros p Hp. apply Hnew. right. exact Hp.
    + apply click_keeps; [|exact H].
      intros p -> _. apply Hnew. left. reflexivity.
Qed.

(** X19: whatever is clicked, no two custom colours have the same hex
    string, and each has population 0, the hsl of its rgb and the category
    of its hsl. *)
Theorem custom_colours_invariant (clicks : list Click) :
  NoDup (map hex (customColorsAfter clicks))
  /\ Forall (fun c => population c = 0
                      /\ hsl c = rgbToHsl (rgb c)
                      /\ category c = categorizeColor (hsl c))
            (customColorsAfter clicks).
Proof.
  unfold customColorsAfter. apply clicks_keep.
  - intros p _. cbn. auto.
  - split; constructor.
Qed.

Lemma hoverPixel_valid (pixelData : byte * byte * byte * byte) :
  validRGB (Pixel.rgb (hoverPixel pixelData))
  /\ Pixel.hex (hoverPixel pixelData) = rgbToHex (Pixel.rgb (hoverPixel pixelData)).
Proof.
  destruct pixelData as [[[p0 p1] p2] p3]. cbn [hoverPixel Pixel.rgb Pixel.hex].
  split; [|reflexivity]. unfold validRGB. cbn [r g b].
  pose proof (Byte.to_N_bounded p0). pose proof (Byte.to_N_bounded p1).
  pose proof (Byte.to_N_bounded p2). lia.
Qed.

(** X20: when every colour added was picked on the image, each custom colour
    has the hex string of its rgb, which reads back as it; no two have the
    same rgb; and picking a colour that is not in the list appends it. *)
Theorem picked_colours (clicks : list Click) (pixelData : byte * byte * byte * byte) :
  Forall picked clicks ->
  let customColors := customColorsAfter clicks in
  let pixelObj := hoverPixel pixelData in
  Forall (fun c => hex c = rgbToHex (rgb c) /\ hexToRgb (hex c) = Some (rgb c))
         customColors
  /\ NoDup (map rgb customColors)
  /\ (~ In (Pixel.rgb pixelObj) (map rgb customColors) ->
      click customColors (Add (Some pixelObj))
      = customColors
        ++ [mkColorData (Pixel.hex pixelObj) (Pixel.rgb pixelObj)
              (rgbToHsl (Pixel.rgb pixelObj))
              (categorizeColor (rgbToHsl (Pixel.rgb pixelObj))) 0])
  /\ (In (Pixel.rgb pixelObj) (map rgb customColors) ->
      click customColors (Add (Some pixelObj)) = customColors).
Proof.
  intros Hpicked customColors pixelObj.
  assert (H : NoDup (map hex customColors)
              /\ Forall (fun c => validRGB (rgb c) /\ hex c = rgbToHex (rgb c))
                        customColors).
  { apply clicks_keep; [|split; constructor].
    intros p Hp. rewrite Forall_forall in Hpicked.
    destruct (Hpicked _ Hp) as (d & ->). cbn [rgb hex]. apply hoverPixel_valid. }
  destruct H as [Hd Hv]. rewrite Forall_forall in Hv.
  destruct (hoverPixel_valid pixelData) as [Vp Ep]. fold pixelObj in Vp, Ep.
  split; [|split; [|split]].
  - apply Forall_forall. intros c Hc. destruct (Hv c Hc) as [V E].
    split; [exact E|]. rewrite E. apply hexToRgb_rgbToHex, V.
  - clear - Hd Hv. induction customColors as [|c l IH]; cbn in *; [constructor|].
    inversion Hd as [|? ? Hn Hl]; subst. constructor.
    + intros Hin. apply Hn. apply in_map_iff in Hin. destruct Hin as (x & E & Hx).
      apply in_map_iff. exists x. split; [|exact Hx].
      rewrite (proj2 (Hv x (or_intror Hx))), (proj2 (Hv c (or_introl eq_refl))).
      congruence.
    + apply IH; [exact Hl|]. intros x Hx. apply Hv. right. exact Hx.
  - intros Hn. cbn [click addColorToPalette].
    destruct (existsb _ _) eqn:Ex; [|reflexivity].
    exfalso. apply Hn. apply some_hex in Ex. apply in_map_iff in Ex.
    destruct Ex as (c & E & Hc). apply in_map_iff. exists c. split; [|exact Hc].
    destruct (Hv c Hc) as [V Ec]. apply rgbToHex_inj; [exact V|exact Vp|].
    congruence.
  - intros Hin. cbn [click addColorToPalette].
    destruct (existsb _ _) eqn:Ex; [reflexivity|].
    exfalso. apply some_hex_false in Ex. apply Ex.
    apply in_map_iff in Hin. destruct Hin as (c & E & Hc).
    apply in_map_iff. exists c. split; [|exact Hc].
    rewrite (proj2 (Hv c Hc)), E. symmetry. exact Ep.
Qed.

Lemma picked_colours_witness :
  Forall picked [Add (Some (hoverPixel (xff, x00, x00, xff))); Remove "#00ff00"]
  /\ NoDup (map rgb (customColorsAfter
       [Add (Some (hoverPixel (xff, x00, x00, xff))); Remove "#00ff00"])).
Proof.
  assert (H : Forall picked
                [Add (Some (hoverPixel (xff, x00, x00, xff))); Remove "#00ff00"]).
  { constructor; [exists (xff, x00, x00, xff); reflexivity|].
    constructor; [exact I|constructor]. }
  split; [exact H|].
  exact (proj1 (proj2 (picked_colours _ (x00, x00, x00, xff) H))).
Defined.

Lemma remove_added (customColors : list ColorData) (pixelObj : Pixel.t) :
  removeCustomColor (Pixel.hex pixelObj)
    (addColorToPalette customColors (Some pixelObj) customColors)
  = removeCustomColor (Pixel.hex pixelObj) customColors.
Proof.
  cbn [addColorToPalette]. destruct (existsb _ _); [reflexivity|].
  unfold removeCustomColor. rewrite filter_app. cbn [filter hex].
  rewrite String.eqb_refl. apply app_nil_r.
Qed.

Lemma remove_absent (customColors : list ColorData) (hexToRemove : string) :
  ~ In hexToRemove (map hex customColors) ->
  removeCustomColor hexToRemove customColors = customColors.
Proof.
  unfold removeCustomColor.
  induction customColors as [|c l IH]; cbn; [reflexivity|]. intros Hn.
  destruct (String.eqb_spec (hex c) hexToRemove) as [Eq|Ne]; cbn [negb].
  - exfalso. apply Hn. left. exact Eq.
  - f_equal. apply IH. tauto.
Qed.

(** X21: removing a colour right after adding it gives what removing it
    alone gives, which is the list itself when the colour was new; and
    after a removal no colour of the list has the hex string removed. *)
Theorem add_then_remove (customColors : list ColorData) (pixelObj : Pixel.t) :
  let added := click customColors (Add (Some pixelObj)) in
  click added (Remove (Pixel.hex pixelObj))
  = click customColors (Remove (Pixel.hex pixelObj))
  /\ ~ In (Pixel.hex pixelObj)
         (map hex (click customColors (Remove (Pixel.hex pixelObj))))
  /\ (~ In (Pixel.hex pixelObj) (map hex customColors) ->
      click added (Remove (Pixel.hex pixelObj)) = customColors).
Proof.
  cbn zeta. cbn [click]. split; [apply remove_added|]. split.
  - unfold removeCustomColor. rewrite in_map_iff. intros (c & E & Hc).
    apply filter_In in Hc. destruct Hc as [_ Hc].
    apply negb_true_iff, String.eqb_neq in Hc. contradiction.
  - intros Hn. rewrite remove_added. apply remove_absent, Hn.
Qed.

Lemma add_then_remove_witness :
  ~ In (Pixel.hex (hoverPixel (xff, x00, x00, xff))) (map hex [])
  /\ click (click [] (Add (Some (hoverPixel (xff, x00, x00, xff)))))
           (Remove (Pixel.hex (hoverPixel (xff, x00, x00, xff)))) = [].
Proof.
  assert (H : ~ In (Pixel.hex (hoverPixel (xff, x00, x00, xff))) (map hex []))
    by (intros []).
  split; [exact H|].
  exact (proj2 (proj2 (add_then_remove [] (hoverPixel (xff, x00, x00, xff)))) H).
Defined.

(** *** The colours sent for the mood analysis *)

Lemma rgbToHex_canonical (c : RGB) : validRGB c -> canonicalHex (rgbToHex c).
Proof.
  intros Hc. rewrite (rgbToHex_digits c Hc).
  destruct Hc as (Hr & Hg & Hb).
  destruct (hi_lo _ Hr) as (Hr1 & Hr0 & _).
  destruct (hi_lo _ Hg) as (Hg1 & Hg0 & _).
  destruct (hi_lo _ Hb) as (Hb1 & Hb0 & _).
  do 6 eexists. split; [reflexivity|].
  repeat constructor; apply hexDigit_lower; assumption.
Qed.

Lemma firstn_In {A : Type} (n : nat) (l : list A) (a : A) :
  In a (firstn n l) -> In a l.
Proof.
  revert n. induction l as [|x l IH]; intros [|n]; cbn; try tauto.
  intros [H | H]; [left; exact H | right; exact (IH n H)].
Qed.

Lemma NoDup_firstn {A : Type} (n : nat) (l : list A) : NoDup l -> NoDup (firstn n l).
Proof.
  revert n. induction l as [|a l IH]; intros [|n] H; cbn; try constructor.
  - inversion H; subst. intros Hin. apply firstn_In in Hin. contradiction. 
  - inversion H; subst. auto.
Qed.

(** X22: of a palette that [extractColors] resolved, [handleGeminiAnalysis]
    sends the hex strings of the first five entries: at most five strings,
    all different, each [#] and six lowercase hexadecimal digits, the
    dominant colour first. *)
Theorem top_colors (context : bool) (image : HTMLImageElement)
    (sampleRate maxColors : nat) (res : PaletteAnalysis) :
  extractColors context image sampleRate maxColors = Resolved res ->
  (List.length (topColors res) <= 5)%nat
  /\ List.length (topColors res) = Nat.min 5 (List.length (all res))
  /\ NoDup (topColors res)
  /\ Forall canonicalHex (topColors res)
  /\ hd_error (topColors res) = option_map hex (hd_error (all res)).
Proof.
  intros Hres. apply extractColors_Resolved in Hres. destruct Hres as (m & Hm & ->).
  pose proof (countColors_tracks _ _ _ Hm) as (_ & _ & Hgood).
  unfold topColors. rewrite length_map, length_firstn.
  split; [lia|]. split; [reflexivity|]. split; [|split].
  - rewrite <- firstn_map. apply NoDup_firstn, analyse_distinct, Hgood.
  - apply Forall_forall. intros hx Hin. apply in_map_iff in Hin.
    destruct Hin as (c & <- & Hc). apply firstn_In in Hc.
    apply all_entry in Hc. destruct Hc as (k & x & -> & _ & Hx).
    change (hex (colorData x)) with (rgbToHex (rgbOf x)).
    apply rgbToHex_canonical. rewrite Forall_forall in Hgood.
    exact (goodEntry_valid _ (Hgood _ Hx)).
  - destruct (all (analyse m maxColors)); reflexivity.
Qed.

Lemma top_colors_witness :
  extractColors true scenarioImage 1 8 = Resolved scenarioPalette
  /\ NoDup (topColors scenarioPalette).
Proof.
  split; [exact scenario_resolved|].
  exact (proj1 (proj2 (proj2 (top_colors true scenarioImage 1 8 scenarioPalette
                                scenario_resolved)))).
Defined.

(** *** The exported picture *)

(** X23: whatever the palette, [handleExportPNG] first paints the whole 800
    by 450 canvas white, then one swatch for each of the first eight
    entries, in their order and in their colour; every swatch has a
    positive width, lies between 50 and 750 across and between 120 and 300
    down, and ends before the next one begins. *)
Theorem export_swatches (palette : PaletteAnalysis) (today : string) :
  let calls := handleExportPNG (Some palette) true today in
  hd_error calls = Some (fillRect "#ffffff" 0 0 800 450)
  /\ map (fun s => fst (fst (fst (fst s)))) (swatches calls)
     = map hex (firstn 8 (all palette))
  /\ forallb within (swatches calls) = true
  /\ spaced (swatches calls) = true.
Proof.
  destruct palette as [l ? ? ? ?]. cbn zeta. cbn [all].
  split; [reflexivity|].
  do 8 (destruct l as [|? l]; [vm_compute; auto|]).
  vm_compute; auto.
Qed.
